(** * FastRAMQPI: bootstrap facility and integration-test harness

    Shallow embedding of [fastramqpi/fastapi.py] and of the fixtures of
    [fastramqpi/pytest_plugin.py] that talk to the backing services.

    Python objects are modelled as follows.
    - A [dict] whose iteration order is observed (the health checks) is an
      association list with unique keys, kept in insertion order.
    - A [dict] that is only looked up or iterated after [sorted] is a [gmap].
    - A [set] is a [gset]; its iteration order is a parameter.
    - A call that may raise returns [exn + A]; a block of statements that
      mutates local state returns the state together with the exception, if
      any, that left the block. *)

From Stdlib Require Import ZArith String Ascii List Bool Lia.
From stdpp Require Import base option list gmap strings sorting.

Open Scope string_scope.
Open Scope list_scope.
Open Scope Z_scope.

(** ** Python exceptions *)

Module Py.

(** The exception classes that occur in the two files, plus one constructor
    for user classes on each side of the [Exception] line. *)
Inductive exn : Type :=
| ValueError (msg : string)
| RuntimeError (msg : string)
| JSONDecodeError
| HTTPStatusError (status : Z)
| ConnectError
| UserException (cls : string)
| CancelledError
| KeyboardInterrupt
| SystemExit
| UserBaseException (cls : string).

(** [isinstance(e, Exception)]: [asyncio.CancelledError], [KeyboardInterrupt]
    and [SystemExit] derive from [BaseException] only. *)
Definition is_Exception (e : exn) : bool :=
  match e with
  | CancelledError | KeyboardInterrupt | SystemExit | UserBaseException _ => false
  | _ => true
  end.

(** [isinstance(e, CancelledError)] *)
Definition is_CancelledError (e : exn) : bool :=
  match e with
  | CancelledError => true
  | _ => false
  end.

(** Calls that may raise. *)
Definition bind {A B : Type} (c : exn + A) (k : A -> exn + B) : exn + B :=
  match c with
  | inl e => inl e
  | inr a => k a
  end.

Definition raised {A : Type} (c : exn + A) : Prop := exists e, c = inl e.

(** *** Insertion-ordered dictionaries with string keys *)

Section Dict.
Context {A : Type}.

Fixpoint dict_get (k : string) (d : list (string * A)) : option A :=
  match d with
  | [] => None
  | (k', v) :: d' => if String.eqb k k' then Some v else dict_get k d'
  end.

(** [k in d] *)
Definition dict_contains (k : string) (d : list (string * A)) : bool :=
  match dict_get k d with
  | Some _ => true
  | None => false
  end.

(** [d[k] = v]: an existing key keeps its position, a new key goes last. *)
Fixpoint dict_setitem (k : string) (v : A) (d : list (string * A))
  : list (string * A) :=
  match d with
  | [] => [(k, v)]
  | (k', v') :: d' =>
      if String.eqb k k' then (k', v) :: d' else (k', v') :: dict_setitem k v d'
  end.

End Dict.

End Py.

(** ** fastapi.py *)

Module FastAPI.
Import Py.

Definition HTTP_204_NO_CONTENT : Z := 204.
Definition HTTP_503_SERVICE_UNAVAILABLE : Z := 503.

(** What awaiting a health check does: it returns a boolean or raises. *)
Inductive outcome : Type :=
| Returns (ready : bool)
| Raises (e : exn).

(** What [__aexit__] of a lifespan manager does: it returns a value whose
    truth asks to swallow the exception in flight, or raises. *)
Inductive exit_outcome : Type :=
| ExitReturns (truthy : bool)
| ExitRaises (e : exn).

(** Records of the module's structlog logger. *)
Inductive log_record : Type :=
| LogWarn (event : string)
| LogException (event : string) (exc : exn).

Section Bootstrap.
(** [Check], [Manager] and [Value] stand for the health-check callables, the
    async context managers (compared by identity in a Python set) and the
    values of the user context. *)
Context {Check Manager Value : Type} `{Countable Manager}.

(** The shared context built by [FastAPIIntegrationSystem.__init__]. The
    [settings] and [app] entries play no part in the functions below. *)
Record AppContext : Type := mkContext {
  name : string;
  healthchecks : list (string * Check);
  lifespan_managers : gmap Z (gset Manager);
  user_context : gmap string Value
}.

Definition init (application_name : string) : AppContext :=
  mkContext application_name [] ∅ ∅.

Definition set_healthchecks (hc : list (string * Check)) (ctx : AppContext) :=
  mkContext (name ctx) hc (lifespan_managers ctx) (user_context ctx).

Definition set_lifespan_managers (lm : gmap Z (gset Manager)) (ctx : AppContext) :=
  mkContext (name ctx) (healthchecks ctx) lm (user_context ctx).

Definition set_user_context (uc : gmap string Value) (ctx : AppContext) :=
  mkContext (name ctx) (healthchecks ctx) (lifespan_managers ctx) uc.

(** *** Registration *)

(** [dict.setdefault(key, default)]: the value under [key], stored first
    when the key is new. *)
Definition setdefault (key : Z) (dflt : gset Manager) (d : gmap Z (gset Manager))
  : gset Manager * gmap Z (gset Manager) :=
  match d !! key with
  | Some s => (s, d)
  | None => (dflt, <[key := dflt]> d)
  end.

Definition default_priority : Z := 1000.

(** [priority_set.add(manager)] mutates the set that the dictionary holds
    under [priority], so the new set is stored back under that key. *)
Definition add_lifespan_manager (manager : Manager) (priority : option Z)
  (ctx : AppContext) : AppContext :=
  let priority := default default_priority priority in
  let '(priority_set, d) := setdefault priority ∅ (lifespan_managers ctx) in
  set_lifespan_managers (<[priority := priority_set ∪ {[manager]}]> d) ctx.

Definition add_healthcheck (nm : string) (healthcheck : Check) (ctx : AppContext)
  : exn + AppContext :=
  if dict_contains nm (healthchecks ctx)
  then inl (ValueError "Name already used")
  else inr (set_healthchecks (dict_setitem nm healthcheck (healthchecks ctx)) ctx).

(** [dict.update] with keyword arguments: they are stored one by one. *)
Definition dict_update (kwargs : list (string * Value)) (d : gmap string Value)
  : gmap string Value :=
  foldl (fun acc kv => <[kv.1 := kv.2]> acc) d kwargs.

Definition add_context (kwargs : list (string * Value)) (ctx : AppContext)
  : AppContext :=
  set_user_context (dict_update kwargs (user_context ctx)) ctx.

(** *** Readiness probe *)

(** [call hc ctx] is [await hc(ctx)]. *)
Variable call : Check -> AppContext -> outcome.

(** The handler's local state: the response status, [all_ready], the records
    logged so far and, as a ghost field, the names of the checks awaited. *)
Record probe : Type := mkProbe {
  status_code : Z;
  all_ready : bool;
  logged : list log_record;
  awaited : list string
}.

Definition set_status (s : Z) (st : probe) : probe :=
  mkProbe s (all_ready st) (logged st) (awaited st).

Definition set_all_ready (b : bool) (st : probe) : probe :=
  mkProbe (status_code st) b (logged st) (awaited st).

Definition log (r : log_record) (st : probe) : probe :=
  mkProbe (status_code st) (all_ready st) (logged st ++ [r]) (awaited st).

Definition await_check (nm : string) (st : probe) : probe :=
  mkProbe (status_code st) (all_ready st) (logged st) (awaited st ++ [nm]).

(** The [for] loop of the handler. It ends normally ([None]) or at the first
    check that raises ([Some e]); the state reached is returned either way. *)
Fixpoint check_loop (ctx : AppContext) (items : list (string * Check))
  (st : probe) : probe * option exn :=
  match items with
  | [] => (st, None)
  | (nm, healthcheck) :: rest =>
      let st := await_check nm st in
      match call healthcheck ctx with
      | Raises e => (st, Some e)
      | Returns ready =>
          let st :=
            if negb ready
            then set_all_ready false (log (LogWarn (nm +:+ " is not ready")) st)
            else st in
          check_loop ctx rest st
      end
  end.

(** How a request handler ends: with a response, or with an exception that
    leaves it. *)
Inductive handled : Type :=
| Responds (st : probe)
| Escapes (e : exn) (st : probe).

Definition finish (st : probe) : handled :=
  Responds
    (if negb (all_ready st) then set_status HTTP_503_SERVICE_UNAVAILABLE st else st).

(** The state on entry to the loop: status 204 and [all_ready] set. *)
Definition on_entry : probe := mkProbe HTTP_204_NO_CONTENT true [] [].

Definition readiness (ctx : AppContext) : handled :=
  match check_loop ctx (healthchecks ctx) on_entry with
  | (st, None) => finish st
  | (st, Some e) =>
      (* except Exception: *)
      if is_Exception e
      then finish
             (set_status HTTP_503_SERVICE_UNAVAILABLE
                (log (LogException "Exception occured during readiness probe" e) st))
      else Escapes e st
  end.

Definition response_status (r : handled) : option Z :=
  match r with
  | Responds st => Some (status_code st)
  | Escapes _ _ => None
  end.

Definition final_state (r : handled) : probe :=
  match r with
  | Responds st => st
  | Escapes _ st => st
  end.

(** What a registered check, an item of the mapping, does when awaited. *)
Definition returns_true (ctx : AppContext) (item : string * Check) : Prop :=
  call item.2 ctx = Returns true.

Definition returns_value (ctx : AppContext) (item : string * Check) : Prop :=
  exists b, call item.2 ctx = Returns b.

Definition fails (ctx : AppContext) (item : string * Check) : Prop :=
  call item.2 ctx = Returns false \/ exists e, call item.2 ctx = Raises e.

Definition raises_only_Exception (ctx : AppContext) (item : string * Check) : Prop :=
  forall e, call item.2 ctx = Raises e -> is_Exception e = true.

(** *** Lifespan *)

(** [aenter m] is [await m.__aenter__()]: [None] when it returns, [Some e]
    when it raises. [aexit m exc] is [await m.__aexit__(...)] with the
    exception in flight, if any. [iter] is the order in which a set yields
    its members; the properties below hold for every order. *)
Variable aenter : Manager -> option exn.
Variable aexit : Manager -> option exn -> exit_outcome.
Variable iter : gset Manager -> list Manager.

Inductive event : Type :=
| Entered (m : Manager)
| EnterRaised (m : Manager) (e : exn)
| Exited (m : Manager).

(** Tuples of [lifespan_managers.items()] are compared on the priority: the
    keys of a dictionary differ, so the sets are never compared. *)
Definition by_priority (a b : Z * gset Manager) : Prop := (a.1 <= b.1)%Z.

Definition by_priority_dec : RelDecision by_priority :=
  fun a b => decide (a.1 <= b.1)%Z.

(** [sorted(lifespan_managers.items())] *)
Definition sorted_items (d : gmap Z (gset Manager)) : list (Z * gset Manager) :=
  @merge_sort _ by_priority by_priority_dec (map_to_list d).

(** The two nested loops: the members of each set in turn, each with the
    priority of its set. *)
Definition expand (items : list (Z * gset Manager)) : list (Z * Manager) :=
  flat_map (fun ps => map (pair ps.1) (iter ps.2)) items.

(** The managers in the order [_lifespan] enters them. *)
Definition lifespan_plan (ctx : AppContext) : list (Z * Manager) :=
  expand (sorted_items (lifespan_managers ctx)).

(** [AsyncExitStack.__aexit__]: the callbacks are popped last in, first out.
    A callback that returns a true value clears the exception in flight; one
    that raises replaces it. [stack] has the last manager entered first. *)
Fixpoint unwind (stack : list Manager) (exc : option exn)
  (suppressed pending : bool) : list event * (option exn * bool * bool) :=
  match stack with
  | [] => ([], (exc, suppressed, pending))
  | m :: below =>
      let '(exc, suppressed, pending) :=
        match aexit m exc with
        | ExitReturns true => (None, true, false)
        | ExitReturns false => (exc, suppressed, pending)
        | ExitRaises e => (Some e, suppressed, true)
        end in
      let '(evs, r) := unwind below exc suppressed pending in
      (Exited m :: evs, r)
  end.

(** The result is the exception [__aexit__] raises, or the value it returns. *)
Definition stack_aexit (stack : list Manager) (exc : option exn)
  : list event * (exn + bool) :=
  let '(evs, (exc', suppressed, pending)) := unwind stack exc false false in
  (evs,
   if pending
   then match exc' with
        | Some e => inl e
        | None => inr false
        end
   else inr (bool_decide (is_Some exc) && suppressed)).

(** Leaving an [async with] block: what propagates past it. *)
Definition leave_with (body : option exn) (aexit_result : exn + bool) : option exn :=
  match aexit_result with
  | inl e => Some e
  | inr swallow =>
      match body with
      | Some e => if swallow then None else Some e
      | None => None
      end
  end.

(** [stack.enter_async_context] for each manager of the plan, until one
    raises. *)
Fixpoint enter_all (plan : list Manager) (stack : list Manager)
  : list event * list Manager * option exn :=
  match plan with
  | [] => ([], stack, None)
  | m :: rest =>
      match aenter m with
      | Some e => ([EnterRaised m e], stack, Some e)
      | None =>
          let '(evs, stack', r) := enter_all rest (m :: stack) in
          (Entered m :: evs, stack', r)
      end
  end.

(** [_lifespan] up to its [yield]: the events, and either the exception that
    startup fails with or the exit stack held open while the application
    runs. A generator that ends without yielding makes
    [asynccontextmanager] raise [RuntimeError]. *)
Definition lifespan_startup (ctx : AppContext)
  : list event * (exn + list Manager) :=
  let '(evs, stack, r) := enter_all (map snd (lifespan_plan ctx)) [] in
  match r with
  | None => (evs, inr stack)
  | Some e =>
      let '(evs', res) := stack_aexit stack (Some e) in
      (evs ++ evs',
       inl (match leave_with (Some e) res with
            | Some e' => e'
            | None => RuntimeError "generator didn't yield"
            end))
  end.

(** [_lifespan] from its [yield] on, resumed at shutdown. *)
Definition lifespan_shutdown (stack : list Manager) : list event * option exn :=
  let '(evs, res) := stack_aexit stack None in
  (evs, leave_with None res).

(** *** Index, and the contexts an integration builds *)



(** [add_healthcheck] called for each item in turn; the first call that
    raises ends the sequence. *)
Definition add_healthchecks (checks : list (string * Check)) (ctx : AppContext)
  : exn + AppContext :=
  foldl (fun acc item => bind acc (add_healthcheck item.1 item.2)) (inr ctx) checks.

(** The warning the probe logs for a check that returns false. *)
Definition not_ready_warning (ctx : AppContext) (item : string * Check)
  : option log_record :=
  match call item.2 ctx with
  | Returns false => Some (LogWarn (item.1 +:+ " is not ready"))
  | _ => None
  end.

End Bootstrap.
End FastAPI.

(** ** pytest_plugin.py *)

Module PytestPlugin.
Import Py.

(** An entry of the RabbitMQ management API's queue listing. *)
Record queue : Type := mkQueue {
  vhost : string;
  name : string
}.

(** An httpx response: the status code and what [.json()] gives, the queue
    listing or the error of decoding the body. Awaiting a request returns a
    response whatever its status; it raises only when no response arrives. *)
Record response : Type := mkResponse {
  status_code : Z;
  json : exn + list queue
}.

(** [Response.raise_for_status]: any status outside 2xx raises. *)
Definition raise_for_status (r : response) : exn + unit :=
  if (200 <=? status_code r)%Z && (status_code r <=? 299)%Z
  then inr tt
  else inl (HTTPStatusError (status_code r)).

(** *** urllib.parse.quote with an empty [safe] *)

(** Letters, digits and [_.-~] are never quoted. *)
Definition always_safe (c : ascii) : bool :=
  let n := nat_of_ascii c in
  ((65 <=? n) && (n <=? 90) || (97 <=? n) && (n <=? 122)
   || (48 <=? n) && (n <=? 57)
   || (n =? 95) || (n =? 46) || (n =? 45) || (n =? 126))%nat.

Definition hex_digit (n : nat) : ascii :=
  ascii_of_nat (if (n <? 10)%nat then 48 + n else 55 + n)%nat.

Definition quote_byte (c : ascii) : string :=
  if always_safe c
  then String c EmptyString
  else
    let n := nat_of_ascii c in
    String "%"%char
      (String (hex_digit (n / 16)%nat)
         (String (hex_digit (n mod 16)%nat) EmptyString)).

Fixpoint quote (s : string) : string :=
  match s with
  | EmptyString => EmptyString
  | String c s' => quote_byte c +:+ quote s'
  end.

(** *** asyncio.gather *)

(** [outs] are the results of the awaitables in argument order and [sched]
    is the order in which they complete. The first exception raised, in
    completion order, propagates; otherwise the results are returned in
    argument order. *)
Fixpoint first_raised {A : Type} (outs : list (exn + A)) (sched : list nat)
  : option exn :=
  match sched with
  | [] => None
  | i :: later =>
      match outs !! i with
      | Some (inl e) => Some e
      | _ => first_raised outs later
      end
  end.

Definition results {A : Type} (outs : list (exn + A)) : list A :=
  omap (fun o => match o with inr a => Some a | inl _ => None end) outs.

Definition gather {A : Type} (sched : list nat) (outs : list (exn + A))
  : exn + list A :=
  match first_raised outs sched with
  | Some e => inl e
  | None => inr (results outs)
  end.

(** *** asyncio tasks, as far as the emitter fixture uses them *)

(** A task of a coroutine that never returns: still suspended, with or
    without a cancellation request, or finished by an exception. *)
Inductive task : Type :=
| Pending (cancel_requested : bool)
| Failed (exc : exn).

(** [task.cancel()] requests cancellation; a finished task ignores it. *)
Definition cancel (t : task) : task :=
  match t with
  | Pending _ => Pending true
  | Failed e => Failed e
  end.

(** [await task]: a finished task raises its exception. A suspended task
    with a cancellation request gets [CancelledError] thrown in at its
    await, and a coroutine that does not catch it ends cancelled. A task
    that stays suspended does not complete the await ([None]). *)
Definition await (t : task) : option (exn + unit) :=
  match t with
  | Failed e => Some (inl e)
  | Pending true => Some (inl CancelledError)
  | Pending false => None
  end.

(** [with suppress(CancelledError): body] *)
Definition suppress_CancelledError (body : exn + unit) : exn + unit :=
  match body with
  | inl e => if is_CancelledError e then inr tt else inl e
  | inr u => inr u
  end.

Section Harness.
(** The RabbitMQ management API behind [rabbitmq_management_client]. *)
Variable rabbitmq_get : string -> exn + response.
Variable rabbitmq_delete : string -> exn + response.

(** *** amqp_queue_isolation *)

Definition queue_url (q : queue) : string :=
  "queues/" +:+ quote (vhost q) +:+ "/" +:+ quote (name q).

(** The coroutines handed to [gather], by the URL each one deletes. *)
Definition delete_urls (queues : list queue) : list string :=
  map queue_url queues.

Definition amqp_queue_isolation (sched : list nat) : exn + unit :=
  bind (rabbitmq_get "queues") (fun r =>
  bind (json r) (fun queues =>
  let deletes := map rabbitmq_delete (delete_urls queues) in
  bind (gather sched deletes) (fun _ => inr tt))).

(** *** os2mo_database_snapshot_and_restore, up to its [yield] *)

(** The sibling fixture checks the status of every reply. *)
Definition os2mo_database_snapshot (reply : exn + response) : exn + unit :=
  bind reply raise_for_status.

(** *** amqp_event_emitter *)

(** One turn of the emitter's loop after its sleep. *)
Definition emit (reply : exn + response) : exn + unit :=
  bind reply raise_for_status.

(** The emitter while the test runs. [replies] are the replies to the POSTs
    it gets to make before teardown; it stops at the first turn that raises
    ([Some e]) or is still in its loop ([None]). *)
Fixpoint emitter (replies : list (exn + response)) : option exn :=
  match replies with
  | [] => None
  | reply :: later =>
      match emit reply with
      | inl e => Some e
      | inr _ => emitter later
      end
  end.

(** [create_task(emitter())], seen at the end of the test. *)
Definition create_task (replies : list (exn + response)) : task :=
  match emitter replies with
  | Some e => Failed e
  | None => Pending false
  end.

(** The code after the fixture's [yield]. *)
Definition teardown (t : task) : option (exn + unit) :=
  let t := cancel t in
  suppress_CancelledError <$> await t.

Definition amqp_event_emitter (replies : list (exn + response))
  : option (exn + unit) :=
  teardown (create_task replies).

End Harness.

(** *** pytest_collection_modifyitems *)

(** A collected test: the markers that apply to it, its own and those of
    the nodes above it, and the list object that holds the names of the
    fixtures it uses. Two items may hold the same list object. *)
Record Item : Type := mkItem {
  markers : list string;
  fixturenames : nat
}.

(** The list objects, by identity. *)
Definition lists : Type := nat -> list string.

(** [item.get_closest_marker(name)] *)
Definition get_closest_marker (marker : string) (item : Item) : option string :=
  if bool_decide (marker ∈ markers item) then Some marker else None.

Definition integration_fixtures : list string :=
  ["fastramqpi_database_setup";
   "fastramqpi_database_isolation";
   "amqp_event_emitter";
   "os2mo_database_snapshot_and_restore";
   "amqp_queue_isolation";
   "passthrough_backing_services"].

Definition unit_test_fixtures : list string := ["empty_environment"].

(** [item.fixturenames[:0] = names]: the list object is changed in place,
    for every item that holds it. *)
Definition prepend_fixtures (names : list string) (item : Item) (store : lists)
  : lists :=
  fun l => if decide (l = fixturenames item) then names ++ store l else store l.

(** The body of the loop, for one item. *)
Definition modify_item (item : Item) (store : lists) : lists :=
  match get_closest_marker "integration_test" item with
  | Some _ => prepend_fixtures integration_fixtures item store
  | None => prepend_fixtures unit_test_fixtures item store
  end.

Definition pytest_collection_modifyitems (items : list Item) (store : lists)
  : lists :=
  foldl (fun store item => modify_item item store) store items.

(** The names the loop prepends for an item. *)
Definition added_fixtures (item : Item) : list string :=
  match get_closest_marker "integration_test" item with
  | Some _ => integration_fixtures
  | None => unit_test_fixtures
  end.

(** *** get_num_queued_messages, get_num_consumed_messages *)

(** The entries of a queue of the listing that the two counters read. Each
    may be missing. *)
Record queue_counts : Type := mkCounts {
  messages_ready : option Z;
  messages_unacknowledged : option Z;
  message_stats : option (gmap string Z)
}.

(** [sum] over a generator of integers. *)
Definition sum_of (xs : list Z) : Z := foldl Z.add 0%Z xs.

(** [queue.get("messages_ready", 0) + queue.get("messages_unacknowledged", 0)] *)
Definition queued (q : queue_counts) : Z :=
  (default 0 (messages_ready q) + default 0 (messages_unacknowledged q))%Z.

(** [queue.get("message_stats", {}).get("ack", 0)] *)
Definition consumed (q : queue_counts) : Z :=
  default 0%Z (default ∅ (message_stats q) !! "ack").

(** [listing] is what awaiting the request and decoding the body gives. *)
Definition get_num_queued_messages (listing : exn + list queue_counts) : exn + Z :=
  bind listing (fun queues => inr (sum_of (map queued queues))).

Definition get_num_consumed_messages (listing : exn + list queue_counts) : exn + Z :=
  bind listing (fun queues => inr (sum_of (map consumed queues))).

End PytestPlugin.

(** ** Sample applications *)

Module Samples.
Import Py FastAPI.

(** Health checks given by what they do, managers by a number. *)
Definition run_check (hc : outcome) (_ : @AppContext outcome nat Z _ _) : outcome :=
  hc.

Definition app : @AppContext outcome nat Z _ _ := init "integration".

Definition with_checks (checks : list (string * outcome))
  : @AppContext outcome nat Z _ _ :=
  set_healthchecks checks app.

(** Managers 7 at priority 10, 9 and 5 at priority 20, 3 at priority 30,
    registered in another order. *)
Definition with_managers : @AppContext outcome nat Z _ _ :=
  add_lifespan_manager 5%nat (Some 20)
    (add_lifespan_manager 7%nat (Some 10)
       (add_lifespan_manager 3%nat (Some 30)
          (add_lifespan_manager 9%nat (Some 20) app))).

Definition quiet_exit (_ : nat) (_ : option exn) : exit_outcome :=
  ExitReturns false.

Definition enter_but (bad : nat) (m : nat) : option exn :=
  if (m =? bad)%nat then Some ConnectError else None.

(** An exit that swallows the exception it is given, for manager [sw], and
    returns without swallowing for the others. *)
Definition swallow_at (sw : nat) (m : nat) (exc : option exn) : exit_outcome :=
  if (m =? sw)%nat then ExitReturns (bool_decide (is_Some exc)) else ExitReturns false.


End Samples.

(** * Properties *)

(** ** Insertion-ordered dictionaries *)

Module DictFacts.
Import Py.

Section Dict.
Context {A : Type}.
Implicit Types (k : string) (v : A) (d : list (string * A)).

Lemma dict_setitem_fresh k v d :
  dict_get k d = None -> dict_setitem k v d = d ++ [(k, v)].
Proof.
  induction d as [|[k' v'] d IH]; simpl; [reflexivity|].
  destruct (String.eqb k k'); [discriminate|].
  intros Hd. now rewrite IH.
Qed.

Lemma dict_get_setitem_eq k v d : dict_get k (dict_setitem k v d) = Some v.
Proof.
  induction d as [|[k' v'] d IH]; simpl.
  - now rewrite String.eqb_refl.
  - destruct (String.eqb k k') eqn:E; simpl; rewrite E; [reflexivity|exact IH].
Qed.

Lemma dict_get_setitem_ne k k' v d :
  k <> k' -> dict_get k' (dict_setitem k v d) = dict_get k' d.
Proof.
  intros Hne. induction d as [|[k0 v0] d IH]; simpl.
  - destruct (String.eqb k' k) eqn:E; [|reflexivity].
    apply String.eqb_eq in E. congruence.
  - destruct (String.eqb k k0) eqn:E; simpl.
    + apply String.eqb_eq in E. subst k0.
      destruct (String.eqb k' k) eqn:E'; [|reflexivity].
      apply String.eqb_eq in E'. congruence.
    + now rewrite IH.
Qed.

Lemma dict_contains_true k d :
  dict_contains k d = true <-> is_Some (dict_get k d).
Proof.
  unfold dict_contains. destruct (dict_get k d); split; intros Hx; eauto.
  - discriminate.
  - destruct Hx; discriminate.
Qed.

Lemma dict_contains_false k d :
  dict_contains k d = false <-> dict_get k d = None.
Proof.
  unfold dict_contains. destruct (dict_get k d); split; congruence.
Qed.

End Dict.
End DictFacts.

(** ** Registration, readiness and lifespan *)

Module BootstrapFacts.
Import Py FastAPI DictFacts.

Section Registration.
Context {Check Manager Value : Type} `{Countable Manager}.
Abbreviation AppContext := (@AppContext Check Manager Value _ _).
Implicit Types (ctx : AppContext) (nm : string) (m : Manager).

(** C5. [add_healthcheck] raises, and then [ValueError], exactly when the name
    is already a key of the health-check mapping; otherwise the check is
    stored under the name, after the checks registered before it. Registering
    a name a second time therefore always raises. *)
Theorem add_healthcheck_raises_iff_registered nm (f : Check) ctx :
  (raised (add_healthcheck nm f ctx) <-> is_Some (dict_get nm (healthchecks ctx)))
  /\ (forall e, add_healthcheck nm f ctx = inl e -> e = ValueError "Name already used")
  /\ (dict_get nm (healthchecks ctx) = None ->
      add_healthcheck nm f ctx
      = inr (set_healthchecks (healthchecks ctx ++ [(nm, f)]) ctx))
  /\ (forall ctx', add_healthcheck nm f ctx = inr ctx' ->
      dict_get nm (healthchecks ctx') = Some f
      /\ forall g, add_healthcheck nm g ctx' = inl (ValueError "Name already used"))
  /\ (forall g app,
      bind (add_healthcheck "x" f (init app : AppContext)) (add_healthcheck "x" g)
      = inl (ValueError "Name already used")).
Proof.
  refine (conj _ (conj _ (conj _ (conj _ _)))); [| | | |reflexivity].
  all: unfold add_healthcheck, raised.
  all: destruct (dict_contains nm (healthchecks ctx)) eqn:E.
  all: try apply dict_contains_true in E as Hs.
  all: try apply dict_contains_false in E as Hn.
  - split; [intros _; exact Hs|intros _; eauto].
  - split; [intros [e [=]]|]. rewrite Hn. intros [x [=]].
  - intros e [= <-]. reflexivity.
  - discriminate.
  - intros Hn. rewrite Hn in Hs. now destruct Hs.
  - intros _. now rewrite dict_setitem_fresh.
  - discriminate.
  - intros ctx' [= <-]. simpl. split; [apply dict_get_setitem_eq|].
    intros g. unfold dict_contains. now rewrite dict_get_setitem_eq.
Qed.

Lemma dict_update_cons (kv : string * Value) kwargs (d : gmap string Value) :
  dict_update (kv :: kwargs) d = dict_update kwargs (<[kv.1 := kv.2]> d).
Proof. reflexivity. Qed.

Lemma dict_update_not_given kwargs (d : gmap string Value) (k : string) :
  k ∉ kwargs.*1 -> dict_update kwargs d !! k = d !! k.
Proof.
  revert d. induction kwargs as [|kv kwargs IH]; intros d Hk; [reflexivity|].
  rewrite fmap_cons in Hk. apply not_elem_of_cons in Hk as [Hne Hk].
  rewrite dict_update_cons, IH by exact Hk.
  apply lookup_insert_ne. congruence.
Qed.

Lemma dict_update_given kwargs (d : gmap string Value) (k : string) (v : Value) :
  NoDup kwargs.*1 -> (k, v) ∈ kwargs -> dict_update kwargs d !! k = Some v.
Proof.
  revert d. induction kwargs as [|kv kwargs IH]; intros d Hnd Hin.
  - inversion Hin.
  - rewrite fmap_cons in Hnd. apply NoDup_cons in Hnd as [Hfresh Hnd].
    rewrite dict_update_cons.
    apply elem_of_cons in Hin as [<-|Hin]; simpl in *.
    + rewrite dict_update_not_given by exact Hfresh. apply lookup_insert_eq.
    + now apply IH.
Qed.

(** C8. [add_context] stores every given pair in the user context and leaves
    the other keys alone; a key written by two calls holds the value of the
    second. With [a=v1] and then [a=v2] on a fresh context the user context
    is exactly [{a: v2}]. *)
Theorem add_context_last_write_wins (k : string) (v1 v2 : Value) ctx :
  user_context (add_context [(k, v2)] (add_context [(k, v1)] ctx)) !! k = Some v2
  /\ (forall k', k' <> k ->
      user_context (add_context [(k, v2)] (add_context [(k, v1)] ctx)) !! k'
      = user_context ctx !! k')
  /\ (forall kwargs, NoDup kwargs.*1 ->
      (forall k' v', (k', v') ∈ kwargs ->
         user_context (add_context kwargs ctx) !! k' = Some v')
      /\ (forall k', k' ∉ kwargs.*1 ->
         user_context (add_context kwargs ctx) !! k' = user_context ctx !! k'))
  /\ (forall app,
      user_context
        (add_context [("a", v2)] (add_context [("a", v1)] (init app : AppContext)))
      = {["a" := v2]}).
Proof.
  refine (conj _ (conj _ (conj _ _))).
  - apply lookup_insert_eq.
  - intros k' Hne. simpl. unfold dict_update. simpl. now rewrite !lookup_insert_ne.
  - intros kwargs Hnd. split.
    + intros k' v' Hin. now apply dict_update_given.
    + intros k' Hk. now apply dict_update_not_given.
  - intros app. simpl. unfold dict_update. simpl. now rewrite insert_insert_eq.
Qed.

(** C9. Adding a manager a second time under the same priority changes
    nothing, and leaving the priority out is adding under 1000. The set
    under the priority gains the manager; the other priorities keep their
    sets. *)
Theorem add_lifespan_manager_idempotent m (priority : option Z) ctx :
  add_lifespan_manager m priority (add_lifespan_manager m priority ctx)
  = add_lifespan_manager m priority ctx
  /\ add_lifespan_manager m None ctx = add_lifespan_manager m (Some 1000) ctx
  /\ (let p := default 1000 priority in
      lifespan_managers (add_lifespan_manager m priority ctx) !! p
      = Some (default ∅ (lifespan_managers ctx !! p) ∪ {[m]})
      /\ forall p', p' <> p ->
         lifespan_managers (add_lifespan_manager m priority ctx) !! p'
         = lifespan_managers ctx !! p').
Proof.
  assert (Hadd : forall ctx0 : AppContext,
    add_lifespan_manager m priority ctx0
    = set_lifespan_managers
        (<[default 1000 priority :=
             default ∅ (lifespan_managers ctx0 !! default 1000 priority) ∪ {[m]}]>
           (lifespan_managers ctx0)) ctx0).
  { intros ctx0. unfold add_lifespan_manager, setdefault, default_priority.
    destruct (lifespan_managers ctx0 !! default 1000 priority) eqn:E; simpl.
    - reflexivity.
    - now rewrite insert_insert_eq. }
  split; [|split; [reflexivity|split]].
  - rewrite (Hadd (add_lifespan_manager m priority ctx)), (Hadd ctx).
    unfold set_lifespan_managers. simpl. f_equal.
    rewrite lookup_insert_eq, insert_insert_eq. simpl.
    f_equal. now rewrite <- (assoc_L (∪)), (idemp_L (∪)).
  - rewrite Hadd. apply lookup_insert_eq.
  - intros p' Hne. rewrite Hadd. now apply lookup_insert_ne.
Qed.

End Registration.

Section Readiness.
Context {Check Manager Value : Type} `{Countable Manager}.
Abbreviation AppContext := (@AppContext Check Manager Value _ _).
Variable call : Check -> AppContext -> outcome.
Implicit Types (ctx : AppContext) (items : list (string * Check)) (st : probe).

Lemma check_loop_status ctx items st :
  status_code (check_loop call ctx items st).1 = status_code st.
Proof.
  revert st. induction items as [|[nm hc] items IH]; intros st; simpl; [reflexivity|].
  destruct (call hc ctx) as [[]|e]; simpl; [| |reflexivity]; now rewrite IH.
Qed.

(** The loop ends normally with [all_ready] still set exactly when it was
    set before and every check returned true. *)
Lemma check_loop_all_ready ctx items st :
  (check_loop call ctx items st).2 = None
  /\ all_ready (check_loop call ctx items st).1 = true
  <-> all_ready st = true /\ Forall (returns_true call ctx) items.
Proof.
  revert st. induction items as [|[nm hc] items IH]; intros st; simpl.
  - split; [intros [_ Hr]; split; [exact Hr|constructor]|intros [Hr _]; now split].
  - rewrite Forall_cons.
    change (returns_true call ctx (nm, hc)) with (call hc ctx = Returns true).
    destruct (call hc ctx) as [[]|e] eqn:E; simpl.
    + rewrite IH. tauto.
    + rewrite IH. simpl. split; [intros [[=] _]|intros [_ [[=] _]]].
    + split; [intros [[=] _]|intros [_ [[=] _]]].
Qed.

(** An exception that ends the loop was raised by one of the checks. *)
Lemma check_loop_raised ctx items st e :
  (check_loop call ctx items st).2 = Some e ->
  exists item, item ∈ items /\ call item.2 ctx = Raises e.
Proof.
  revert st. induction items as [|[nm hc] items IH]; intros st; simpl; [discriminate|].
  destruct (call hc ctx) as [b|e'] eqn:E; simpl.
  - intros Hr. destruct (IH _ Hr) as (item & Hin & Hc).
    exists item. split; [now right|exact Hc].
  - intros [= ->]. exists (nm, hc). split; [now left|exact E].
Qed.

(** Checks that return, whatever they return, do not end the loop. *)
Lemma check_loop_app ctx pre rest st :
  Forall (returns_value call ctx) pre ->
  exists st',
    check_loop call ctx (pre ++ rest) st = check_loop call ctx rest st'
    /\ awaited st' = awaited st ++ map fst pre.
Proof.
  revert st. induction pre as [|[nm hc] pre IH]; intros st Hpre; simpl.
  - exists st. now rewrite app_nil_r.
  - apply Forall_cons in Hpre as [[b Hb] Hpre]. simpl in Hb. rewrite Hb.
    edestruct IH as (st' & -> & Haw); [exact Hpre|].
    exists st'. split; [reflexivity|]. rewrite Haw.
    destruct b; simpl; now rewrite <- app_assoc.
Qed.

(** The loop awaits its first check, whatever happened before. *)
Lemma check_loop_awaited ctx items st :
  exists names,
    awaited (check_loop call ctx items st).1 = awaited st ++ names
    /\ forall nm hc rest, items = (nm, hc) :: rest -> exists names', names = nm :: names'.
Proof.
  destruct items as [|[nm hc] items]; simpl.
  - exists []. rewrite app_nil_r. split; [reflexivity|discriminate].
  - destruct (call hc ctx) as [b|e] eqn:E; simpl.
    + destruct (check_loop_app ctx [(nm, hc)] items st) as (st' & Heq & Haw).
      { constructor; [now exists b|constructor]. }
      simpl in Heq. rewrite E in Heq. rewrite Heq. clear Heq.
      assert (Hmono : forall its st0, exists names,
                awaited (check_loop call ctx its st0).1 = awaited st0 ++ names).
      { induction its as [|[nm0 hc0] its IH]; intros st0; simpl.
        - exists []. now rewrite app_nil_r.
        - destruct (call hc0 ctx) as [b0|e0]; simpl; [|now exists [nm0]].
          edestruct IH as [names ->]. exists (nm0 :: names).
          destruct b0; simpl; now rewrite <- app_assoc. }
      destruct (Hmono items st') as [names ->]. rewrite Haw. simpl.
      exists (nm :: names). split; [now rewrite <- app_assoc|].
      intros ? ? ? [= <- <- <-]. eauto.
    + exists [nm]. split; [reflexivity|]. intros ? ? ? [= <- <- <-]. eauto.
Qed.

Lemma readiness_awaited ctx :
  awaited (final_state (readiness call ctx))
  = awaited (check_loop call ctx (healthchecks ctx) on_entry).1.
Proof.
  unfold readiness, finish.
  destruct (check_loop _ _ _ _) as [st [e|]]; simpl.
  - destruct (is_Exception e); simpl; [|reflexivity].
    now destruct (all_ready st).
  - now destruct (all_ready st).
Qed.

(** The status of the response in terms of how the loop ended. *)
Lemma response_status_readiness ctx :
  let r := check_loop call ctx (healthchecks ctx) on_entry in
  response_status (readiness call ctx)
  = match r.2 with
    | None => Some (if all_ready r.1 then 204 else 503)
    | Some e => if is_Exception e then Some 503 else None
    end.
Proof.
  intros r. unfold readiness, finish.
  pose proof (check_loop_status ctx (healthchecks ctx)
                on_entry) as Hst.
  fold r in Hst |- *. destruct r as [st [e|]]; simpl in *.
  - destruct (is_Exception e); simpl; [|reflexivity].
    now destruct (all_ready st).
  - destruct (all_ready st); simpl; [now rewrite Hst|reflexivity].
Qed.

(** The first check that raises ends the loop, with the checks up to it
    awaited and no other. *)
Lemma check_loop_first_raise ctx pre nm hc post e st :
  Forall (returns_value call ctx) pre ->
  call hc ctx = Raises e ->
  (check_loop call ctx (pre ++ (nm, hc) :: post) st).2 = Some e
  /\ awaited (check_loop call ctx (pre ++ (nm, hc) :: post) st).1
     = awaited st ++ map fst pre ++ [nm].
Proof.
  intros Hpre He.
  destruct (check_loop_app ctx pre ((nm, hc) :: post) st Hpre) as (st' & -> & Haw).
  simpl. rewrite He. simpl. split; [reflexivity|].
  now rewrite Haw, <- app_assoc.
Qed.

(** C1, amended. The probe answers 204 exactly when every registered check,
    awaited with the shared context, returns true. It answers 503 when some
    check returns false or raises, provided that every exception a check
    raises is an instance of [Exception]. *)
Theorem readiness_204_iff_all_true ctx :
  (response_status (readiness call ctx) = Some 204
   <-> Forall (returns_true call ctx) (healthchecks ctx))
  /\ (Forall (raises_only_Exception call ctx) (healthchecks ctx) ->
      Exists (fails call ctx) (healthchecks ctx) ->
      response_status (readiness call ctx) = Some 503).
Proof.
  rewrite response_status_readiness.
  pose proof (check_loop_all_ready ctx (healthchecks ctx)
                on_entry) as Hall.
  pose proof (check_loop_raised ctx (healthchecks ctx)
                on_entry) as Hraised.
  simpl in Hall.
  destruct (check_loop call ctx (healthchecks ctx) _) as [st [e|]]; simpl in *.
  - split.
    + split.
      * destruct (is_Exception e); discriminate.
      * intros Hf. destruct (proj2 Hall (conj eq_refl Hf)) as [[=] _].
    + intros Honly _. destruct (Hraised e eq_refl) as (item & Hin & Hc).
      rewrite Forall_forall in Honly. now rewrite (Honly item Hin e Hc).
  - split.
    + split.
      * destruct (all_ready st) eqn:Hr; [|discriminate].
        intros _. now apply Hall.
      * intros Hf. now destruct (proj2 Hall (conj eq_refl Hf)) as [_ ->].
    + intros _ Hex. destruct (all_ready st) eqn:Hr; [|reflexivity].
      destruct (proj1 Hall (conj eq_refl eq_refl)) as [_ Hf].
      apply Exists_exists in Hex as (item & Hin & Hfail).
      rewrite Forall_forall in Hf. specialize (Hf item Hin).
      unfold returns_true in Hf. destruct Hfail as [Hx|[e Hx]]; congruence.
Qed.

(** An exception that ends the loop was raised by the first check that
    does not return. *)
Lemma check_loop_raised_first ctx items st e :
  (check_loop call ctx items st).2 = Some e ->
  exists pre item post,
    items = pre ++ item :: post
    /\ Forall (returns_value call ctx) pre
    /\ call item.2 ctx = Raises e.
Proof.
  revert st. induction items as [|[nm hc] items IH]; intros st; simpl; [discriminate|].
  destruct (call hc ctx) as [b|e'] eqn:E; simpl.
  - intros Hr. destruct (IH _ Hr) as (pre & item & post & -> & Hpre & Hc).
    exists ((nm, hc) :: pre), item, post. split; [reflexivity|].
    split; [|exact Hc]. constructor; [now exists b|exact Hpre].
  - intros [= ->]. exists [], (nm, hc), items. split; [reflexivity|].
    split; [constructor|exact E].
Qed.

(** C4, amended. An exception raised while the checks are awaited is caught,
    logged and answered with 503 when it is an instance of [Exception], and
    leaves the handler when it is not. The probe ends with a response, 204
    or 503, unless a check raises an exception that is no instance of
    [Exception]; so it always does when every exception the checks raise is
    such an instance. *)
Theorem readiness_catches_Exception ctx :
  (forall pre item post e,
     healthchecks ctx = pre ++ item :: post ->
     Forall (returns_value call ctx) pre ->
     call item.2 ctx = Raises e ->
     (is_Exception e = true ->
      exists st,
        readiness call ctx = Responds st
        /\ status_code st = 503
        /\ LogException "Exception occured during readiness probe" e ∈ logged st)
     /\ (is_Exception e = false ->
         exists st, readiness call ctx = Escapes e st))
  /\ ((exists st,
        readiness call ctx = Responds st
        /\ (status_code st = 204 \/ status_code st = 503))
      \/ (exists e st,
          readiness call ctx = Escapes e st
          /\ is_Exception e = false
          /\ exists pre item post,
              healthchecks ctx = pre ++ item :: post
              /\ Forall (returns_value call ctx) pre
              /\ call item.2 ctx = Raises e))
  /\ (Forall (raises_only_Exception call ctx) (healthchecks ctx) ->
      exists st,
        readiness call ctx = Responds st
        /\ (status_code st = 204 \/ status_code st = 503)).
Proof.
  assert (Hcases :
    (exists st,
       readiness call ctx = Responds st
       /\ (status_code st = 204 \/ status_code st = 503))
    \/ (exists e st,
          readiness call ctx = Escapes e st
          /\ is_Exception e = false
          /\ exists pre item post,
              healthchecks ctx = pre ++ item :: post
              /\ Forall (returns_value call ctx) pre
              /\ call item.2 ctx = Raises e)).
  { unfold readiness.
    pose proof (check_loop_status ctx (healthchecks ctx) on_entry) as Hst.
    pose proof (check_loop_raised_first ctx (healthchecks ctx) on_entry) as Hfirst.
    destruct (check_loop call ctx (healthchecks ctx) on_entry) as [st [e|]];
      simpl in *.
    - destruct (is_Exception e) eqn:E.
      + left. eexists. split; [reflexivity|]. unfold finish. simpl.
        destruct (all_ready st); simpl; now right.
      + right. exists e, st. split; [reflexivity|]. split; [exact E|].
        now apply Hfirst.
    - left. eexists. split; [reflexivity|]. unfold finish. simpl.
      destruct (all_ready st); simpl; [left; exact Hst|now right]. }
  refine (conj _ (conj Hcases _)).
  - intros pre [nm hc] post e Hsplit Hpre He. simpl in He.
    unfold readiness. rewrite Hsplit.
    destruct (check_loop_first_raise ctx pre nm hc post e on_entry Hpre He)
      as [Hr _].
    destruct (check_loop call ctx (pre ++ (nm, hc) :: post) on_entry) as [st r].
    simpl in Hr. subst r. split; intros ->.
    + eexists. split; [reflexivity|]. unfold finish. simpl.
      split; [destruct (all_ready st); reflexivity|].
      destruct (all_ready st); simpl; apply elem_of_app; right; now left.
    + eexists. reflexivity.
  - intros Honly. destruct Hcases as [Hresp|Hesc]; [exact Hresp|exfalso].
    destruct Hesc as (e & st & _ & Hno & pre & item & post & Hsplit & _ & He).
    rewrite Forall_forall in Honly.
    rewrite (Honly item) in Hno; [discriminate| |exact He].
    rewrite Hsplit. apply elem_of_app. right. now left.
Qed.

(** X7. An exception leaves the handler only if a check raised it and it is not
    an instance of [Exception]. *)
Lemma readiness_escapes ctx e st :
  readiness call ctx = Escapes e st ->
  is_Exception e = false
  /\ exists item, item ∈ healthchecks ctx /\ call item.2 ctx = Raises e.
Proof.
  unfold readiness.
  pose proof (check_loop_raised ctx (healthchecks ctx)
                on_entry) as Hraised.
  destruct (check_loop call ctx (healthchecks ctx) _) as [st' [e'|]]; simpl in *.
  - destruct (is_Exception e') eqn:E; [discriminate|].
    intros [= <- <-]. split; [exact E|]. now apply Hraised.
  - discriminate.
Qed.

(** C10, amended. After a run of checks that return, a check that raises is
    the last one awaited, and the answer is 503 when the exception is an
    instance of [Exception]. A check that returns false is followed by the
    next registered check, and by all of them when none of them raises. *)
Theorem readiness_raise_stops_false_continues ctx pre nm hc post :
  healthchecks ctx = pre ++ (nm, hc) :: post ->
  Forall (returns_value call ctx) pre ->
  (forall e, call hc ctx = Raises e ->
     awaited (final_state (readiness call ctx)) = map fst pre ++ [nm]
     /\ (is_Exception e = true ->
         response_status (readiness call ctx) = Some 503))
  /\ (call hc ctx = Returns false ->
      (exists names,
         awaited (final_state (readiness call ctx)) = map fst pre ++ nm :: names
         /\ forall nm' hc' post', post = (nm', hc') :: post' ->
            exists names', names = nm' :: names')
      /\ (Forall (returns_value call ctx) post ->
          awaited (final_state (readiness call ctx))
          = map fst (healthchecks ctx))).
Proof.
  intros Hsplit Hpre. split.
  - intros e He.
    rewrite readiness_awaited, response_status_readiness. simpl.
    rewrite Hsplit.
    destruct (check_loop_first_raise ctx pre nm hc post e
                on_entry Hpre He) as [-> ->].
    split; [reflexivity|]. now intros ->.
  - intros Hfalse. rewrite readiness_awaited, Hsplit. split.
    + assert (Hpre' : Forall (returns_value call ctx) (pre ++ [(nm, hc)])).
      { apply Forall_app. split; [exact Hpre|].
        constructor; [now exists false|constructor]. }
      destruct (check_loop_app ctx _ post
                  on_entry Hpre')
        as (st' & Heq & Haw).
      rewrite <- app_assoc in Heq. simpl in Heq. rewrite Heq.
      destruct (check_loop_awaited ctx post st') as (names & -> & Hnext).
      exists names. split; [|exact Hnext].
      rewrite Haw, map_app. simpl. now rewrite <- app_assoc.
    + intros Hpost.
      assert (Hall : Forall (returns_value call ctx) (pre ++ (nm, hc) :: post)).
      { apply Forall_app. split; [exact Hpre|].
        apply Forall_cons. split; [now exists false|exact Hpost]. }
      destruct (check_loop_app ctx _ [] on_entry Hall)
        as (st' & Heq & Haw).
      rewrite app_nil_r in Heq. rewrite Heq. simpl. exact Haw.
Qed.

End Readiness.

Section Lifespan.
Context {Check Manager Value : Type} `{Countable Manager}.
Abbreviation AppContext := (@AppContext Check Manager Value _ _).
Variable aenter : Manager -> option exn.
Variable aexit : Manager -> option exn -> exit_outcome.
Variable iter : gset Manager -> list Manager.
Hypothesis iter_elements : forall s, iter s ≡ₚ elements s.
Implicit Types (ctx : AppContext) (m : Manager) (stack plan : list Manager).
Implicit Types (items : list (Z * gset Manager)).

Lemma by_priority_total : Total (@by_priority Manager _ _).
Proof. intros a b. unfold by_priority. lia. Qed.

Lemma by_priority_trans : Transitive (@by_priority Manager _ _).
Proof. intros a b c. unfold by_priority. lia. Qed.

Lemma sorted_items_sorted (d : gmap Z (gset Manager)) :
  StronglySorted by_priority (sorted_items d).
Proof.
  apply StronglySorted_merge_sort; [apply by_priority_trans|apply by_priority_total].
Qed.

Lemma sorted_items_perm (d : gmap Z (gset Manager)) :
  sorted_items d ≡ₚ map_to_list d.
Proof. apply merge_sort_Permutation. Qed.

Lemma elem_of_sorted_items (d : gmap Z (gset Manager)) p s :
  (p, s) ∈ sorted_items d <-> d !! p = Some s.
Proof. now rewrite sorted_items_perm, elem_of_map_to_list. Qed.

Lemma elem_of_expand items p m :
  (p, m) ∈ expand iter items <-> exists s, (p, s) ∈ items /\ m ∈ s.
Proof.
  unfold expand. rewrite list_elem_of_In, in_flat_map. split.
  - intros ([p' s] & Hin & Hm). simpl in Hm.
    apply in_map_iff in Hm as (m' & [= <- <-] & Hm).
    exists s. split; [now apply list_elem_of_In|].
    apply list_elem_of_In in Hm. rewrite iter_elements in Hm.
    now apply elem_of_elements in Hm.
  - intros (s & Hin & Hm). exists (p, s). split; [now apply list_elem_of_In|].
    simpl. apply in_map. apply list_elem_of_In.
    rewrite iter_elements. now apply elem_of_elements.
Qed.

Lemma expand_sorted items :
  StronglySorted by_priority items ->
  StronglySorted Z.le (map fst (expand iter items)).
Proof.
  induction items as [|[p s] items IH]; intros Hs; simpl; [constructor|].
  apply StronglySorted_cons in Hs as [Hle Hs].
  rewrite map_app. apply StronglySorted_app_2; [| |now apply IH].
  - intros p1 p2 H1 H2.
    apply list_elem_of_In, in_map_iff in H1 as ([p1' m1] & <- & H1).
    apply in_map_iff in H1 as (? & [= <- _] & _).
    apply list_elem_of_In, in_map_iff in H2 as ([p2' m2] & <- & H2).
    apply list_elem_of_In, elem_of_expand in H2 as (s2 & H2 & _).
    rewrite Forall_forall in Hle. exact (Hle _ H2).
  - rewrite map_map. simpl. induction (iter s) as [|m l IHl]; simpl.
    + constructor.
    + constructor; [exact IHl|]. apply Forall_forall. intros x Hx.
      apply list_elem_of_In, in_map_iff in Hx as (? & <- & _). lia.
Qed.

Lemma expand_NoDup items : NoDup (map fst items) -> NoDup (expand iter items).
Proof.
  induction items as [|[p s] items IH]; intros Hnd; simpl; [constructor|].
  apply NoDup_cons in Hnd as [Hp Hnd]. apply NoDup_app. split; [|split].
  - apply (NoDup_fmap_2 (pair p)). rewrite iter_elements. apply NoDup_elements.
  - intros [p' m] Hin Hin'.
    apply list_elem_of_In, in_map_iff in Hin as (? & [= <- <-] & _).
    apply elem_of_expand in Hin' as (s' & Hin' & _).
    apply Hp. apply list_elem_of_In, in_map_iff.
    exists (p, s'). split; [reflexivity|now apply list_elem_of_In].
  - now apply IH.
Qed.

Lemma unwind_events stack exc suppressed pending :
  (unwind aexit stack exc suppressed pending).1 = map Exited stack.
Proof.
  revert exc suppressed pending.
  induction stack as [|m stack IH]; intros exc suppressed pending; simpl;
    [reflexivity|].
  destruct (aexit m exc) as [[]|e];
    match goal with
    | |- context [unwind aexit stack ?x ?y ?z] =>
        specialize (IH x y z); destruct (unwind aexit stack x y z)
    end; simpl in *; now rewrite IH.
Qed.

(** Every callback of the stack runs, last entered first, whatever the
    callbacks before it did. *)
Lemma stack_aexit_events stack exc :
  (stack_aexit aexit stack exc).1 = map Exited stack.
Proof.
  unfold stack_aexit.
  pose proof (unwind_events stack exc false false) as Hev.
  destruct (unwind aexit stack exc false false) as [evs [[exc' suppressed] pending]].
  exact Hev.
Qed.

(** Callbacks that neither raise nor ask to swallow leave the exception in
    flight as it is. *)
Lemma stack_aexit_quiet stack exc :
  Forall (fun m => forall x, aexit m x = ExitReturns false) stack ->
  (stack_aexit aexit stack exc).2 = inr false.
Proof.
  intros Hq. unfold stack_aexit.
  assert (Hu : forall s p, (unwind aexit stack exc s p).2 = (exc, s, p)).
  { revert exc. induction Hq as [|m stack Hm Hq IH]; intros exc s p; simpl;
      [reflexivity|].
    rewrite Hm. specialize (IH exc s p).
    destruct (unwind aexit stack exc s p). simpl in *. exact IH. }
  specialize (Hu false false).
  destruct (unwind aexit stack exc false false) as [evs [[exc' suppressed] pending]].
  simpl in Hu. injection Hu as -> -> ->. simpl. now rewrite andb_false_r.
Qed.

Lemma enter_all_ok plan stack :
  Forall (fun m => aenter m = None) plan ->
  enter_all aenter plan stack = (map Entered plan, rev plan ++ stack, None).
Proof.
  intros Hok. revert stack.
  induction Hok as [|m plan Hm Hok IH]; intros stack; simpl; [reflexivity|].
  rewrite Hm, IH. now rewrite <- app_assoc.
Qed.

Lemma enter_all_raise pre m post e stack :
  Forall (fun x => aenter x = None) pre ->
  aenter m = Some e ->
  enter_all aenter (pre ++ m :: post) stack
  = (map Entered pre ++ [EnterRaised m e], rev pre ++ stack, Some e).
Proof.
  intros Hok He. revert stack.
  induction Hok as [|x pre Hx Hok IH]; intros stack; simpl.
  - now rewrite He.
  - rewrite Hx, IH. now rewrite <- app_assoc.
Qed.

Lemma sorted_lookup_le (l : list Z) i j x y :
  StronglySorted Z.le l -> l !! i = Some x -> l !! j = Some y ->
  (i < j)%nat -> (x <= y)%Z.
Proof.
  intros Hs. revert i j. induction Hs as [|a l Hs IH Hall]; intros i j Hi Hj Hlt.
  - discriminate.
  - destruct j as [|j]; [lia|]. destruct i as [|i]; simpl in *.
    + injection Hi as <-. rewrite Forall_forall in Hall.
      apply Hall. eapply list_elem_of_lookup_2. exact Hj.
    + apply (IH i j); [assumption..|lia].
Qed.

(** C2. When every manager enters, startup enters the registered managers,
    each once under each priority it is registered under, in an order in
    which the priorities never decrease: a manager of a lower priority is
    entered before any manager of a higher one. Shutdown then exits the
    managers in the reverse of the order in which startup entered them. *)
Theorem lifespan_enters_by_priority_exits_in_reverse ctx :
  let plan := lifespan_plan iter ctx in
  let entered := map snd plan in
  Forall (fun m => aenter m = None) entered ->
  StronglySorted Z.le (map fst plan)
  /\ (forall i j p m p' m',
      plan !! i = Some (p, m) -> plan !! j = Some (p', m') ->
      (p < p')%Z -> (i < j)%nat)
  /\ NoDup plan
  /\ (forall p m, (p, m) ∈ plan
                  <-> exists s, lifespan_managers ctx !! p = Some s /\ m ∈ s)
  /\ exists stack,
      lifespan_startup aenter aexit iter ctx = (map Entered entered, inr stack)
      /\ (lifespan_shutdown aexit stack).1 = map Exited (rev entered).
Proof.
  intros plan entered Hok.
  assert (Hsorted : StronglySorted Z.le (map fst plan)).
  { apply expand_sorted, sorted_items_sorted. }
  refine (conj Hsorted (conj _ (conj _ (conj _ _)))).
  - intros i j p m p' m' Hi Hj Hlt.
    destruct (decide (i < j)%nat) as [|Hge]; [assumption|exfalso].
    assert (Hpi : map fst plan !! i = Some p) by now rewrite list_lookup_fmap, Hi.
    assert (Hpj : map fst plan !! j = Some p') by now rewrite list_lookup_fmap, Hj.
    destruct (decide (i = j)) as [->|Hne]; [rewrite Hpi in Hpj; injection Hpj; lia|].
    assert (Hji : (j < i)%nat) by lia.
    pose proof (sorted_lookup_le _ _ _ _ _ Hsorted Hpj Hpi Hji). lia.
  - apply expand_NoDup.
    change (map fst (sorted_items (lifespan_managers ctx)))
      with ((sorted_items (lifespan_managers ctx)).*1).
    rewrite sorted_items_perm. apply NoDup_fst_map_to_list.
  - intros p m. unfold plan, lifespan_plan. rewrite elem_of_expand.
    split; intros (s & Hs & Hm); exists s; split; try assumption;
      now apply elem_of_sorted_items.
  - exists (rev entered). unfold lifespan_startup, lifespan_shutdown.
    fold plan. fold entered. rewrite enter_all_ok by exact Hok.
    rewrite app_nil_r. split; [reflexivity|].
    pose proof (stack_aexit_events (rev entered) None) as Hev.
    destruct (stack_aexit aexit (rev entered) None). exact Hev.
Qed.

(** C3. When a manager raises on entry after others have entered, the ones
    that entered are exited, last entered first, and then startup fails;
    with the exception of the failed entry when no exit raises or asks to
    swallow it. *)
Theorem lifespan_startup_failure_unwinds ctx pre m post e :
  map snd (lifespan_plan iter ctx) = pre ++ m :: post ->
  Forall (fun x => aenter x = None) pre ->
  aenter m = Some e ->
  exists e',
    lifespan_startup aenter aexit iter ctx
    = (map Entered pre ++ [EnterRaised m e] ++ map Exited (rev pre), inl e')
    /\ (Forall (fun x => forall exc, aexit x exc = ExitReturns false) pre ->
        e' = e).
Proof.
  intros Hplan Hok He. unfold lifespan_startup.
  rewrite Hplan, (enter_all_raise pre m post e) by assumption. rewrite app_nil_r.
  pose proof (stack_aexit_events (rev pre) (Some e)) as Hev.
  pose proof (stack_aexit_quiet (rev pre) (Some e)) as Hquiet.
  destruct (stack_aexit aexit (rev pre) (Some e)) as [evs res]. simpl in *.
  subst evs. eexists. split.
  - now rewrite <- app_assoc.
  - intros Hq. rewrite Hquiet; [reflexivity|].
    apply Forall_forall. intros x Hx. rewrite Forall_forall in Hq.
    apply Hq. apply list_elem_of_In. apply list_elem_of_In in Hx.
    now apply in_rev.
Qed.

End Lifespan.
End BootstrapFacts.

(** ** Test harness *)

Module HarnessFacts.
Import Py PytestPlugin.

Section Gather.
Context {A : Type}.
Implicit Types (outs : list (exn + A)) (sched : list nat).

Lemma first_raised_elem outs sched e :
  first_raised outs sched = Some e -> inl e ∈ outs.
Proof.
  induction sched as [|i sched IH]; simpl; [discriminate|].
  destruct (outs !! i) as [[e'|a]|] eqn:E; try exact IH.
  intros [= ->]. eapply list_elem_of_lookup_2. exact E.
Qed.

Lemma first_raised_none outs sched :
  first_raised outs sched = None ->
  forall i e, i ∈ sched -> outs !! i <> Some (inl e).
Proof.
  induction sched as [|j sched IH]; simpl; intros Hn i e Hi.
  - inversion Hi.
  - destruct (outs !! j) as [[e'|a]|] eqn:E; try discriminate.
    + apply elem_of_cons in Hi as [->|Hi]; [congruence|now apply IH].
    + apply elem_of_cons in Hi as [->|Hi]; [congruence|now apply IH].
Qed.

(** Whatever the order of completion, [gather] raises exactly when one of
    the awaitables does, and what it raises is one of their exceptions. *)
Lemma gather_raises outs sched :
  sched ≡ₚ seq 0 (length outs) ->
  (raised (gather sched outs) <-> exists e, inl e ∈ outs)
  /\ (forall e, gather sched outs = inl e -> inl e ∈ outs).
Proof.
  intros Hperm. unfold gather, raised.
  destruct (first_raised outs sched) as [e|] eqn:E.
  - apply first_raised_elem in E. split.
    + split; eauto.
    + now intros e' [= <-].
  - split; [|discriminate]. split; [intros [e [=]]|].
    intros [e He]. apply list_elem_of_lookup_1 in He as [i Hi].
    exfalso. eapply (first_raised_none outs sched E i e); [|exact Hi].
    rewrite Hperm. apply elem_of_seq. apply lookup_lt_Some in Hi. lia.
Qed.

End Gather.

Section Isolation.
Variable rabbitmq_get : string -> exn + response.
Variable rabbitmq_delete : string -> exn + response.

(** The fixture fails only when a request gets no response or the listing
    cannot be decoded: the status of a response never makes it fail. *)
Lemma amqp_queue_isolation_replies sched r queues :
  rabbitmq_get "queues" = inr r ->
  json r = inr queues ->
  Forall (fun url => exists reply, rabbitmq_delete url = inr reply)
    (delete_urls queues) ->
  amqp_queue_isolation rabbitmq_get rabbitmq_delete sched = inr tt.
Proof.
  intros Hget Hjson Hdel. unfold amqp_queue_isolation.
  rewrite Hget. simpl. rewrite Hjson. simpl. unfold gather.
  destruct (first_raised _ sched) as [e|] eqn:E; [|reflexivity].
  apply first_raised_elem in E.
  apply list_elem_of_In, in_map_iff in E as (url & Hurl & Hin).
  rewrite Forall_forall in Hdel.
  destruct (Hdel url) as [reply Hreply]; [now apply list_elem_of_In|congruence].
Qed.

(** A deletion that gets no response makes the fixture fail, in whatever
    order the deletions complete. *)
Lemma amqp_queue_isolation_no_response sched r queues :
  rabbitmq_get "queues" = inr r ->
  json r = inr queues ->
  sched ≡ₚ seq 0 (length queues) ->
  Exists (fun url => raised (rabbitmq_delete url)) (delete_urls queues) ->
  raised (amqp_queue_isolation rabbitmq_get rabbitmq_delete sched).
Proof.
  intros Hget Hjson Hperm Hex. unfold amqp_queue_isolation.
  rewrite Hget. simpl. rewrite Hjson. simpl.
  destruct (gather_raises (map rabbitmq_delete (delete_urls queues)) sched)
    as [Hiff _].
  { unfold delete_urls. now rewrite !length_map. }
  destruct (proj2 Hiff) as [e He].
  - apply Exists_exists in Hex as (url & Hin & [e He]).
    exists e. rewrite <- He. apply list_elem_of_In, in_map.
    now apply list_elem_of_In.
  - rewrite He. now exists e.
Qed.

End Isolation.

(** C6. The broker answers the listing with one queue and the deletion of
    that queue with status 500. The isolation fixture completes without
    raising, while the check its sibling fixtures apply to every reply
    raises on the same response. *)
Theorem amqp_queue_isolation_ignores_error_status :
  let listing := mkResponse 200 (inr [mkQueue "/" "orders"]) in
  let refusal := mkResponse 500 (inr []) in
  amqp_queue_isolation (fun _ => inr listing) (fun _ => inr refusal) [0%nat]
  = inr tt
  /\ os2mo_database_snapshot (inr refusal) = inl (HTTPStatusError 500).
Proof. split; reflexivity. Qed.

Section Emitter.
Implicit Types (replies : list (exn + response)) (t : task).

(** Once cancelled, a task can be awaited to completion. *)
Lemma await_cancel t : is_Some (await (cancel t)).
Proof. destruct t as [[]|e]; simpl; eauto. Qed.

Lemma emitter_app_ok ok replies :
  Forall (fun reply => emit reply = inr tt) ok ->
  emitter (ok ++ replies) = emitter replies.
Proof.
  induction 1 as [|reply ok Hr Hok IH]; simpl; [reflexivity|].
  now rewrite Hr.
Qed.

(** C7. Teardown cancels the task and awaits it, and always completes. An
    exception that ended the task during the test is raised by teardown,
    unless it is a [CancelledError]; a task that was still running ends
    cancelled, and that cancellation is swallowed. A reply with an error
    status to an emit request is such an exception. *)
Theorem amqp_event_emitter_teardown replies :
  (exists r, amqp_event_emitter replies = Some r)
  /\ (forall e, emitter replies = Some e -> is_CancelledError e = false ->
      amqp_event_emitter replies = Some (inl e))
  /\ (forall e, emitter replies = Some e -> is_CancelledError e = true ->
      amqp_event_emitter replies = Some (inr tt))
  /\ (emitter replies = None -> amqp_event_emitter replies = Some (inr tt))
  /\ (forall ok status body later,
      Forall (fun reply => emit reply = inr tt) ok ->
      (status < 200 \/ 299 < status)%Z ->
      amqp_event_emitter (ok ++ inr (mkResponse status body) :: later)
      = Some (inl (HTTPStatusError status))).
Proof.
  unfold amqp_event_emitter, create_task, teardown.
  refine (conj _ (conj _ (conj _ (conj _ _)))).
  - destruct (emitter replies); simpl; eauto.
  - intros e -> He. simpl. now rewrite He.
  - intros e -> He. simpl. now rewrite He.
  - now intros ->.
  - intros ok status body later Hok Hst. rewrite emitter_app_ok by exact Hok.
    simpl. unfold raise_for_status. simpl.
    destruct (200 <=? status)%Z eqn:E1; destruct (status <=? 299)%Z eqn:E2;
      simpl; try reflexivity.
    apply Z.leb_le in E1. apply Z.leb_le in E2. lia.
Qed.

End Emitter.

(** C7, witness. The second emit request is answered with status 500, and
    teardown raises the error. *)
Lemma amqp_event_emitter_teardown_witness :
  let accepted := mkResponse 200 (inr []) in
  let refusal := mkResponse 500 (inr []) in
  emitter [inr accepted; inr refusal] = Some (HTTPStatusError 500)
  /\ amqp_event_emitter [inr accepted; inr refusal]
     = Some (inl (HTTPStatusError 500)).
Proof.
  intros accepted refusal. split; [reflexivity|].
  exact (proj1 (proj2 (amqp_event_emitter_teardown [inr accepted; inr refusal]))
           (HTTPStatusError 500) eq_refl eq_refl).
Defined.

End HarnessFacts.

(** ** Concrete runs *)

Module Examples.
Import Py FastAPI Samples BootstrapFacts.

(** C1, counterexample. A check that is cancelled raises, and the probe does
    not answer 503: it gives no answer. *)
Lemma readiness_cancelled_check_no_503 :
  let ctx := with_checks [("amqp", Raises CancelledError)] in
  Exists (fails run_check ctx) (healthchecks ctx)
  /\ response_status (readiness run_check ctx) <> Some 503.
Proof.
  split.
  - left. right. now exists CancelledError.
  - discriminate.
Qed.

(** C1, witness. Two checks, the second raising an [Exception]: 503. *)
Lemma readiness_204_iff_all_true_witness :
  let ctx := with_checks [("db", Returns true); ("amqp", Raises ConnectError)] in
  Forall (raises_only_Exception run_check ctx) (healthchecks ctx)
  /\ Exists (fails run_check ctx) (healthchecks ctx)
  /\ response_status (readiness run_check ctx) = Some 503.
Proof.
  assert (Honly : Forall
            (raises_only_Exception run_check
               (with_checks [("db", Returns true); ("amqp", Raises ConnectError)]))
            [("db", Returns true); ("amqp", Raises ConnectError)]).
  { repeat constructor; intros e [= <-]; reflexivity. }
  assert (Hex : Exists
            (fails run_check
               (with_checks [("db", Returns true); ("amqp", Raises ConnectError)]))
            [("db", Returns true); ("amqp", Raises ConnectError)]).
  { right. left. right. now exists ConnectError. }
  split; [exact Honly|split; [exact Hex|]].
  exact (proj2 (readiness_204_iff_all_true run_check _) Honly Hex).
Defined.

(** C4, counterexample. The second check is cancelled while it is awaited:
    the handler ends with [CancelledError] and without a response. *)
Lemma readiness_cancellation_escapes :
  let ctx := with_checks [("db", Returns true); ("amqp", Raises CancelledError)] in
  response_status (readiness run_check ctx) = None
  /\ exists st, readiness run_check ctx = Escapes CancelledError st.
Proof. split; [reflexivity|]. eexists. reflexivity. Qed.

(** C4, witness. The first check raises [ValueError] and is caught, although
    the second would raise [KeyboardInterrupt]. *)
Lemma readiness_catches_Exception_witness :
  let ctx := with_checks
               [("db", Raises (ValueError "down")); ("amqp", Raises KeyboardInterrupt)] in
  healthchecks ctx
  = [] ++ ("db", Raises (ValueError "down")) :: [("amqp", Raises KeyboardInterrupt)]
  /\ exists st,
      readiness run_check ctx = Responds st
      /\ status_code st = 503
      /\ LogException "Exception occured during readiness probe" (ValueError "down")
         ∈ logged st.
Proof.
  intros ctx. split; [reflexivity|].
  exact (proj1 (proj1 (readiness_catches_Exception run_check ctx)
                  [] ("db", Raises (ValueError "down"))
                  [("amqp", Raises KeyboardInterrupt)] (ValueError "down")
                  eq_refl (List.Forall_nil _) eq_refl) eq_refl).
Defined.

(** C10, counterexample. The first check returns false and the second is
    cancelled: the answer is not 503, and the third check, registered after
    one that merely returned false, is not awaited. *)
Lemma readiness_cancelled_after_false :
  let ctx := with_checks
               [("a", Returns false); ("b", Raises CancelledError); ("c", Returns true)] in
  response_status (readiness run_check ctx) <> Some 503
  /\ "c" ∉ awaited (final_state (readiness run_check ctx)).
Proof.
  split; [discriminate|].
  vm_compute. intros Hin. repeat (apply elem_of_cons in Hin as [Hin|Hin]; [discriminate|]).
  inversion Hin.
Qed.

(** C10, witness. The check after one that returns false is awaited. *)
Lemma readiness_raise_stops_false_continues_witness :
  let ctx := with_checks
               [("a", Returns true); ("b", Returns false); ("c", Returns true)] in
  healthchecks ctx = [("a", Returns true)] ++ ("b", Returns false) :: [("c", Returns true)]
  /\ Forall (returns_value run_check ctx) [("a", Returns true)]
  /\ awaited (final_state (readiness run_check ctx)) = ["a"; "b"; "c"].
Proof.
  intros ctx.
  assert (Hpre : Forall (returns_value run_check ctx) [("a", Returns true)]).
  { repeat constructor. now exists true. }
  split; [reflexivity|split; [exact Hpre|]].
  refine (proj2 (proj2 (readiness_raise_stops_false_continues run_check ctx
                          [("a", Returns true)] "b" (Returns false)
                          [("c", Returns true)] eq_refl Hpre) eq_refl) _).
  repeat constructor. now exists true.
Defined.

(** C2, witness. Priorities 10, 20, 20 and 30, with the sets iterated in
    the order of [elements]. *)
Lemma lifespan_enters_by_priority_exits_in_reverse_witness :
  (forall s : gset nat, elements s ≡ₚ elements s)
  /\ Forall (fun m => enter_but 4 m = None) (map snd (lifespan_plan elements with_managers))
  /\ exists stack,
      lifespan_startup (enter_but 4) quiet_exit elements with_managers
      = ([Entered 7; Entered 9; Entered 5; Entered 3]%nat, inr stack)
      /\ (lifespan_shutdown quiet_exit stack).1
         = [Exited 3; Exited 5; Exited 9; Exited 7]%nat.
Proof.
  assert (Hiter : forall s : gset nat, elements s ≡ₚ elements s) by reflexivity.
  assert (Hok : Forall (fun m => enter_but 4 m = None)
                  (map snd (lifespan_plan elements with_managers))).
  { vm_compute. repeat constructor. }
  split; [exact Hiter|split; [exact Hok|]].
  exact (proj2 (proj2 (proj2 (proj2
           (lifespan_enters_by_priority_exits_in_reverse
              (enter_but 4) quiet_exit elements Hiter with_managers Hok))))).
Defined.

(** The same managers with the sets iterated in the opposite order: the two
    managers of priority 20 swap, the rest stays. *)
Example lifespan_startup_other_set_order :
  (lifespan_startup (enter_but 4) quiet_exit (fun s => rev (elements s))
     with_managers).1
  = [Entered 7; Entered 5; Entered 9; Entered 3]%nat.
Proof. vm_compute. reflexivity. Qed.

(** C3, witness. The third manager of four raises on entry. *)
Lemma lifespan_startup_failure_unwinds_witness :
  map snd (lifespan_plan elements with_managers) = [7; 9]%nat ++ 5%nat :: [3%nat]
  /\ Forall (fun m => enter_but 5 m = None) [7; 9]%nat
  /\ exists e',
      lifespan_startup (enter_but 5) quiet_exit elements with_managers
      = (map Entered [7; 9]%nat ++ [EnterRaised 5%nat ConnectError]
           ++ map Exited (rev [7; 9]%nat), inl e')
      /\ (Forall (fun x => forall exc, quiet_exit x exc = ExitReturns false) [7; 9]%nat ->
          e' = ConnectError).
Proof.
  assert (Hplan : map snd (lifespan_plan elements with_managers)
                  = [7; 9]%nat ++ 5%nat :: [3%nat]) by (vm_compute; reflexivity).
  assert (Hok : Forall (fun m => enter_but 5 m = None) [7; 9]%nat)
    by (repeat constructor).
  split; [exact Hplan|split; [exact Hok|]].
  exact (lifespan_startup_failure_unwinds (enter_but 5) quiet_exit elements
           with_managers [7; 9]%nat 5%nat [3%nat] ConnectError Hplan Hok eq_refl).
Defined.

End Examples.

(** ** More on registration *)

Module RegistrationFacts.
Import Py FastAPI DictFacts.

Section Registration.
Context {Check Manager Value : Type} `{Countable Manager}.
Abbreviation AppContext := (@AppContext Check Manager Value _ _).
Implicit Types (ctx : AppContext) (nm : string) (m : Manager).
Implicit Types (checks d : list (string * Check)).

Lemma add_lifespan_manager_unfold m (priority : option Z) ctx :
  add_lifespan_manager m priority ctx
  = set_lifespan_managers
      (<[default 1000 priority :=
           default ∅ (lifespan_managers ctx !! default 1000 priority) ∪ {[m]}]>
         (lifespan_managers ctx)) ctx.
Proof.
  unfold add_lifespan_manager, setdefault, default_priority.
  destruct (lifespan_managers ctx !! default 1000 priority) eqn:E; simpl.
  - reflexivity.
  - now rewrite insert_insert_eq.
Qed.

Lemma dict_get_None (k : string) d : dict_get k d = None <-> k ∉ map fst d.
Proof.
  induction d as [|[k' v] d IH]; simpl.
  - split; [intros _; apply not_elem_of_nil|reflexivity].
  - rewrite not_elem_of_cons. destruct (String.eqb k k') eqn:E.
    + apply String.eqb_eq in E. split; [discriminate|]. intros [Hne _]. congruence.
    + apply String.eqb_neq in E. rewrite IH. tauto.
Qed.



Lemma add_healthchecks_cons (item : string * Check) checks ctx :
  add_healthchecks (item :: checks) ctx
  = bind (add_healthcheck item.1 item.2 ctx) (add_healthchecks checks).
Proof.
  unfold add_healthchecks. simpl.
  destruct (add_healthcheck item.1 item.2 ctx) as [e|ctx']; simpl; [|reflexivity].
  induction checks as [|c checks IH]; simpl; [reflexivity|exact IH].
Qed.

Lemma add_healthchecks_from checks ctx :
  NoDup (map fst (healthchecks ctx)) ->
  (NoDup (map fst (healthchecks ctx ++ checks)) ->
   add_healthchecks checks ctx
   = inr (set_healthchecks (healthchecks ctx ++ checks) ctx))
  /\ (~ NoDup (map fst (healthchecks ctx ++ checks)) ->
      add_healthchecks checks ctx = inl (ValueError "Name already used")).
Proof.
  revert ctx. induction checks as [|[nm hc] checks IH]; intros ctx Hnd.
  - rewrite app_nil_r. split; [|tauto]. intros _. now destruct ctx.
  - rewrite add_healthchecks_cons. simpl. unfold add_healthcheck.
    destruct (dict_contains nm (healthchecks ctx)) eqn:E.
    + apply dict_contains_true in E.
      assert (Hin : nm ∈ map fst (healthchecks ctx)).
      { destruct (decide (nm ∈ map fst (healthchecks ctx))) as [|Hn]; [assumption|].
        apply dict_get_None in Hn. rewrite Hn in E. now destruct E. }
      split; [|reflexivity]. intros Hnd'. exfalso.
      rewrite map_app in Hnd'. apply NoDup_app in Hnd' as (_ & Hdisj & _).
      apply (Hdisj nm Hin). simpl. now left.
    + apply dict_contains_false in E. rewrite dict_setitem_fresh by exact E.
      apply dict_get_None in E. simpl.
      assert (Hnd1 : NoDup (map fst (healthchecks ctx ++ [(nm, hc)]))).
      { rewrite map_app. simpl. apply NoDup_app. split; [exact Hnd|split].
        - intros x Hx Hx'. apply list_elem_of_singleton in Hx'. now subst x.
        - apply NoDup_singleton. }
      destruct (IH (set_healthchecks (healthchecks ctx ++ [(nm, hc)]) ctx) Hnd1)
        as [Hok Hbad].
      simpl in Hok, Hbad. rewrite <- app_assoc in Hok, Hbad. simpl in Hok, Hbad.
      split; intros Hx; [now rewrite Hok|now rewrite Hbad].
Qed.

(** X2. Registered one after the other on a fresh application, health checks
    with distinct names end up in the mapping in the order of registration;
    with a repeated name the sequence raises [ValueError]. *)
Theorem add_healthchecks_keeps_order checks (app : string) :
  (NoDup (map fst checks) ->
   add_healthchecks checks (init app : AppContext)
   = inr (set_healthchecks checks (init app)))
  /\ (~ NoDup (map fst checks) ->
      add_healthchecks checks (init app : AppContext)
      = inl (ValueError "Name already used")).
Proof.
  apply (add_healthchecks_from checks (init app)). constructor.
Qed.

(** X3. Two managers can be registered in either order: the context is the same,
    whether or not they share a priority. *)
Theorem add_lifespan_manager_comm m1 m2 (p1 p2 : option Z) ctx :
  add_lifespan_manager m1 p1 (add_lifespan_manager m2 p2 ctx)
  = add_lifespan_manager m2 p2 (add_lifespan_manager m1 p1 ctx).
Proof.
  rewrite !add_lifespan_manager_unfold. unfold set_lifespan_managers. simpl.
  f_equal. apply map_eq. intros k.
  generalize (default 1000 p1) (default 1000 p2). intros q1 q2.
  destruct (decide (q1 = q2)) as [->|Hne].
  - rewrite !lookup_insert_eq, !insert_insert_eq. simpl.
    rewrite !lookup_insert. case_decide; [|reflexivity]. f_equal.
    rewrite <- !(assoc_L (∪)). f_equal. apply (comm_L (∪)).
  - rewrite !(lookup_insert_ne _ q1 q2), !(lookup_insert_ne _ q2 q1) by congruence.
    rewrite !lookup_insert. repeat case_decide; congruence.
Qed.

Lemma dict_update_step (kv : string * Value) kwargs (d : gmap string Value) :
  dict_update (kv :: kwargs) d = dict_update kwargs (<[kv.1 := kv.2]> d).
Proof. reflexivity. Qed.

(** What [update] leaves under a key it is given does not depend on the
    dictionary it updates. *)
Lemma lookup_dict_update kwargs (d : gmap string Value) (k : string) :
  dict_update kwargs d !! k
  = if decide (k ∈ map fst kwargs) then dict_update kwargs ∅ !! k else d !! k.
Proof.
  revert d. induction kwargs as [|kv kwargs IH]; intros d; [reflexivity|].
  rewrite !dict_update_step, IH, (IH (<[kv.1:=kv.2]> ∅)). simpl.
  destruct (decide (k ∈ map fst kwargs)) as [Hin|Hout].
  - rewrite decide_True by (now right). reflexivity.
  - destruct (decide (k = kv.1)) as [->|Hne].
    + rewrite decide_True by (now left). now rewrite !lookup_insert_eq.
    + rewrite decide_False by (rewrite not_elem_of_cons; tauto).
      now rewrite lookup_insert_ne by congruence.
Qed.

(** The pairs of [kwargs1] whose key [kwargs2] does not give, followed by
    [kwargs2]. *)
Lemma dict_update_dropped kwargs (keys : list string) (d : gmap string Value)
    (k : string) :
  k ∉ keys ->
  dict_update (filter (fun kv => kv.1 ∉ keys) kwargs) d !! k
  = dict_update kwargs d !! k.
Proof.
  intros Hk. revert d. induction kwargs as [|kv kwargs IH]; intros d; [reflexivity|].
  rewrite filter_cons. destruct (decide (kv.1 ∉ keys)) as [Hkeep|Hdrop].
  - rewrite !dict_update_step. apply IH.
  - rewrite dict_update_step, <- IH.
    rewrite lookup_dict_update, (lookup_dict_update _ (<[kv.1:=kv.2]> d)).
    destruct (decide (k ∈ map fst (filter (fun kv0 => kv0.1 ∉ keys) kwargs)));
      [reflexivity|].
    rewrite lookup_insert_ne; [reflexivity|].
    intros Heq. apply Hdrop. now rewrite Heq.
Qed.

Lemma merged_NoDup (kwargs1 kwargs2 : list (string * Value)) :
  NoDup (map fst kwargs1) -> NoDup (map fst kwargs2) ->
  NoDup (map fst (filter (fun kv => kv.1 ∉ map fst kwargs2) kwargs1 ++ kwargs2)).
Proof.
  intros H1 H2. rewrite map_app. apply NoDup_app. split; [|split; [|exact H2]].
  - induction kwargs1 as [|kv kwargs1 IH]; [constructor|].
    simpl in H1. apply NoDup_cons in H1 as [Hfresh H1].
    rewrite filter_cons. destruct (decide (kv.1 ∉ map fst kwargs2)); [|now apply IH].
    simpl. apply NoDup_cons. split; [|now apply IH].
    intros Hin. apply Hfresh.
    apply list_elem_of_In, in_map_iff in Hin as (kv' & Heq & Hin).
    apply list_elem_of_In, list_elem_of_filter in Hin as [_ Hin].
    apply list_elem_of_In, in_map_iff. exists kv'.
    split; [exact Heq|now apply list_elem_of_In].
  - intros k Hin Hin'.
    apply list_elem_of_In, in_map_iff in Hin as (kv & <- & Hin).
    apply list_elem_of_In, list_elem_of_filter in Hin as [Hout _].
    contradiction.
Qed.

(** X5. With keyword arguments of distinct names in each call, two calls of
    [add_context] amount to one call, with the arguments of the first that
    the second does not give followed by those of the second, and these
    have distinct names again. Repeating a call changes nothing, and a call
    without arguments changes nothing. *)
Theorem add_context_compose (kwargs1 kwargs2 : list (string * Value)) ctx :
  NoDup (map fst kwargs1) ->
  NoDup (map fst kwargs2) ->
  let merged := filter (fun kv => kv.1 ∉ map fst kwargs2) kwargs1 ++ kwargs2 in
  NoDup (map fst merged)
  /\ add_context kwargs2 (add_context kwargs1 ctx) = add_context merged ctx
  /\ add_context kwargs1 (add_context kwargs1 ctx) = add_context kwargs1 ctx
  /\ add_context [] ctx = ctx.
Proof.
  intros H1 H2 merged. split; [now apply merged_NoDup|].
  unfold add_context, set_user_context. simpl. split; [|split].
  - f_equal. unfold merged. apply map_eq. intros k.
    replace (dict_update
               (filter (fun kv => kv.1 ∉ map fst kwargs2) kwargs1 ++ kwargs2)
               (user_context ctx))
      with (dict_update kwargs2
              (dict_update (filter (fun kv => kv.1 ∉ map fst kwargs2) kwargs1)
                 (user_context ctx)))
      by (unfold dict_update; now rewrite foldl_app).
    rewrite lookup_dict_update, (lookup_dict_update kwargs2 (dict_update (filter _ _) _)).
    destruct (decide (k ∈ map fst kwargs2)) as [|Hout]; [reflexivity|].
    symmetry. now apply dict_update_dropped.
  - f_equal. apply map_eq. intros k.
    rewrite lookup_dict_update, (lookup_dict_update kwargs1 (user_context ctx)).
    now destruct (decide (k ∈ map fst kwargs1)).
  - now destruct ctx.
Qed.

End Registration.
End RegistrationFacts.

(** ** More on the readiness probe *)

Module ProbeFacts.
Import Py FastAPI BootstrapFacts.

Section Probe.
Context {Check Manager Value : Type} `{Countable Manager}.
Abbreviation AppContext := (@AppContext Check Manager Value _ _).
Variable call : Check -> AppContext -> outcome.
Implicit Types (ctx : AppContext) (items : list (string * Check)) (st : probe).

(** Checks that return leave one warning for each that returns false. *)
Lemma check_loop_app_logged ctx pre rest st :
  Forall (returns_value call ctx) pre ->
  exists st',
    check_loop call ctx (pre ++ rest) st = check_loop call ctx rest st'
    /\ logged st' = logged st ++ omap (not_ready_warning call ctx) pre.
Proof.
  revert st. induction pre as [|[nm hc] pre IH]; intros st Hpre; simpl.
  - exists st. now rewrite app_nil_r.
  - apply Forall_cons in Hpre as [[b Hb] Hpre]. simpl in Hb.
    unfold not_ready_warning at 1. simpl. rewrite Hb.
    edestruct IH as (st' & -> & Hlog); [exact Hpre|].
    exists st'. split; [reflexivity|]. rewrite Hlog.
    destruct b; simpl; [reflexivity|now rewrite <- app_assoc].
Qed.

Lemma readiness_logged ctx :
  let r := check_loop call ctx (healthchecks ctx) on_entry in
  logged (final_state (readiness call ctx))
  = logged r.1
    ++ match r.2 with
       | Some e =>
           if is_Exception e
           then [LogException "Exception occured during readiness probe" e]
           else []
       | None => []
       end.
Proof.
  intros r. unfold readiness, finish. fold r.
  destruct r as [st [e|]]; simpl.
  - destruct (is_Exception e); simpl; [|now rewrite app_nil_r].
    now destruct (all_ready st).
  - rewrite app_nil_r. now destruct (all_ready st).
Qed.

(** X6. The probe logs one warning for each check that returns false, naming
    it, in the order of registration, and nothing else when no check
    raises. When a check raises, the warnings are those of the checks
    before it, followed by the record of the exception if it is an
    instance of [Exception]. *)
Theorem readiness_log ctx :
  (Forall (returns_value call ctx) (healthchecks ctx) ->
   logged (final_state (readiness call ctx))
   = omap (not_ready_warning call ctx) (healthchecks ctx))
  /\ (forall pre item post e,
      healthchecks ctx = pre ++ item :: post ->
      Forall (returns_value call ctx) pre ->
      call item.2 ctx = Raises e ->
      logged (final_state (readiness call ctx))
      = omap (not_ready_warning call ctx) pre
        ++ (if is_Exception e
            then [LogException "Exception occured during readiness probe" e]
            else [])).
Proof.
  split.
  - intros Hall. rewrite readiness_logged.
    destruct (check_loop_app_logged ctx (healthchecks ctx) [] on_entry Hall)
      as (st' & Heq & Hlog).
    rewrite app_nil_r in Heq. rewrite Heq. simpl. now rewrite app_nil_r.
  - intros pre [nm hc] post e Hsplit Hpre He. simpl in He.
    rewrite readiness_logged, Hsplit.
    destruct (check_loop_app_logged ctx pre ((nm, hc) :: post) on_entry Hpre)
      as (st' & -> & Hlog).
    simpl. rewrite He. simpl. now rewrite Hlog.
Qed.

End Probe.
End ProbeFacts.

(** ** More on the lifespan *)

Module LifespanFacts.
Import Py FastAPI BootstrapFacts RegistrationFacts.

Section Plan.
Context {Check Manager Value : Type} `{Countable Manager}.
Abbreviation AppContext := (@AppContext Check Manager Value _ _).
Variable iter : gset Manager -> list Manager.
Hypothesis iter_elements : forall s, iter s ≡ₚ elements s.
Implicit Types (ctx : AppContext) (m : Manager).

Lemma elem_of_lifespan_plan ctx p m :
  (p, m) ∈ lifespan_plan iter ctx
  <-> exists s, lifespan_managers ctx !! p = Some s /\ m ∈ s.
Proof.
  unfold lifespan_plan. rewrite (elem_of_expand iter iter_elements).
  split; intros (s & Hs & Hm); exists s; split; try assumption;
    now apply elem_of_sorted_items.
Qed.

(** X4. A manager registered under a priority is entered at startup under that
    priority, next to the managers registered before, and nothing else is. *)
Theorem add_lifespan_manager_plan m (priority : option Z) ctx p' m' :
  (p', m') ∈ lifespan_plan iter (add_lifespan_manager m priority ctx)
  <-> (p', m') = (default 1000 priority, m) \/ (p', m') ∈ lifespan_plan iter ctx.
Proof.
  rewrite !elem_of_lifespan_plan, add_lifespan_manager_unfold. simpl.
  split.
  - intros (s & Hs & Hm). rewrite lookup_insert in Hs. case_decide.
    + subst p'. injection Hs as <-. apply elem_of_union in Hm as [Hm|Hm].
      * right. destruct (lifespan_managers ctx !! default 1000 priority) as [s0|];
          simpl in Hm; [eauto|set_solver].
      * left. apply elem_of_singleton in Hm. now subst m'.
    + right. eauto.
  - intros [[= -> ->]|(s & Hs & Hm)].
    + eexists. rewrite lookup_insert_eq. split; [reflexivity|set_solver].
    + destruct (decide (default 1000 priority = p')) as [<-|Hne].
      * eexists. rewrite lookup_insert_eq. split; [reflexivity|].
        rewrite Hs. simpl. set_solver.
      * exists s. now rewrite lookup_insert_ne.
Qed.

End Plan.

Section Lifespan.
Context {Check Manager Value : Type} `{Countable Manager}.
Abbreviation AppContext := (@AppContext Check Manager Value _ _).
Variable aenter : Manager -> option exn.
Variable aexit : Manager -> option exn -> exit_outcome.
Variable iter : gset Manager -> list Manager.
Implicit Types (ctx : AppContext) (m : Manager) (stack : list Manager).

Lemma unwind_app above below exc suppressed pending :
  unwind aexit (above ++ below) exc suppressed pending
  = let '(evs1, (exc1, suppressed1, pending1)) :=
      unwind aexit above exc suppressed pending in
    let '(evs2, r) := unwind aexit below exc1 suppressed1 pending1 in
    (evs1 ++ evs2, r).
Proof.
  revert exc suppressed pending.
  induction above as [|m above IH]; intros exc suppressed pending; simpl.
  - now destruct (unwind aexit below exc suppressed pending).
  - destruct (aexit m exc) as [[]|e]; rewrite IH;
      match goal with
      | |- context [unwind aexit above ?x ?y ?z] =>
          destruct (unwind aexit above x y z) as [evs1 [[exc1 s1] p1]]
      end;
      now destruct (unwind aexit below exc1 s1 p1).
Qed.

Lemma unwind_quiet stack exc suppressed pending :
  Forall (fun m => forall x, aexit m x = ExitReturns false) stack ->
  (unwind aexit stack exc suppressed pending).2 = (exc, suppressed, pending).
Proof.
  intros Hq. revert exc. induction Hq as [|m stack Hm Hq IH]; intros exc; simpl;
    [reflexivity|].
  rewrite Hm. specialize (IH exc).
  now destruct (unwind aexit stack exc suppressed pending).
Qed.

Lemma unwind_no_raise_pending stack exc suppressed :
  Forall (fun m => forall x, exists b, aexit m x = ExitReturns b) stack ->
  (unwind aexit stack exc suppressed false).2.2 = false.
Proof.
  intros Hq. revert exc suppressed.
  induction Hq as [|m stack Hm Hq IH]; intros exc suppressed; simpl; [reflexivity|].
  destruct (Hm exc) as [[] ->];
    match goal with
    | |- context [unwind aexit stack ?x ?y false] =>
        specialize (IH x y); now destruct (unwind aexit stack x y false)
    end.
Qed.

(** Callbacks that never raise leave nothing to raise. An exception in
    flight that is gone stays gone, with a swallow recorded, and it is gone
    after a callback that swallows whatever exception it is given. *)
Lemma unwind_no_raise stack exc suppressed exc' suppressed' pending' :
  Forall (fun m => forall x, exists b, aexit m x = ExitReturns b) stack ->
  (exc = None -> suppressed = true) ->
  (unwind aexit stack exc suppressed false).2 = (exc', suppressed', pending') ->
  pending' = false
  /\ (exc' = None -> suppressed' = true)
  /\ (exc = None -> exc' = None)
  /\ (Exists (fun m => forall x, aexit m (Some x) = ExitReturns true) stack ->
      exc' = None).
Proof.
  intros Hq. revert exc suppressed.
  induction Hq as [|m stack Hm Hq IH]; intros exc suppressed Hinv; simpl.
  - intros [= <- <- <-]. refine (conj eq_refl (conj Hinv (conj (fun h => h) _))).
    intros Hex. inversion Hex.
  - destruct (Hm exc) as [b Hb]. rewrite Hb. destruct b.
    + specialize (IH None true (fun _ => eq_refl)).
      destruct (unwind aexit stack None true false) as [evs r]. simpl in *.
      intros ->. destruct (IH eq_refl) as (Hp & Hs & Hn & _).
      refine (conj Hp (conj Hs (conj (fun _ => Hn eq_refl) (fun _ => Hn eq_refl)))).
    + specialize (IH exc suppressed Hinv).
      destruct (unwind aexit stack exc suppressed false) as [evs r]. simpl in *.
      intros ->. destruct (IH eq_refl) as (Hp & Hs & Hn & Hx).
      refine (conj Hp (conj Hs (conj Hn _))).
      intros Hex. apply Exists_cons in Hex as [Hsw|Hex]; [|now apply Hx].
      destruct exc as [x|]; [|now apply Hn].
      rewrite Hsw in Hb. discriminate.
Qed.

(** X8. At shutdown every manager of the stack is exited, whatever the exits
    do. Shutdown ends without an exception when no exit raises, and with
    the exception of an exit that raises when the managers exited after it
    return without asking to swallow. *)
Theorem lifespan_shutdown_outcome stack :
  (lifespan_shutdown aexit stack).1 = map Exited stack
  /\ (Forall (fun m => forall x, exists b, aexit m x = ExitReturns b) stack ->
      (lifespan_shutdown aexit stack).2 = None)
  /\ (forall above m below e,
      stack = above ++ m :: below ->
      (forall x, aexit m x = ExitRaises e) ->
      Forall (fun m' => forall x, aexit m' x = ExitReturns false) below ->
      (lifespan_shutdown aexit stack).2 = Some e).
Proof.
  unfold lifespan_shutdown. split; [|split].
  - pose proof (stack_aexit_events aexit stack None) as Hev.
    now destruct (stack_aexit aexit stack None).
  - intros Hq. unfold stack_aexit.
    pose proof (unwind_no_raise_pending stack None false Hq) as Hp.
    destruct (unwind aexit stack None false false) as [evs [[exc' s'] p']].
    simpl in Hp. now subst p'.
  - intros above m below e -> Hm Hbelow. unfold stack_aexit.
    rewrite unwind_app.
    destruct (unwind aexit above None false false) as [evs1 [[exc1 s1] p1]].
    simpl. rewrite Hm.
    pose proof (unwind_quiet below (Some e) s1 true Hbelow) as Hq.
    destruct (unwind aexit below (Some e) s1 true) as [evs2 r]. simpl in Hq.
    subst r. reflexivity.
Qed.

(** X9. When an entry raises and an exit swallows the exception, no exit
    raising, startup still fails: the generator ends without yielding. *)
Theorem lifespan_startup_swallowed ctx pre m post e :
  map snd (lifespan_plan iter ctx) = pre ++ m :: post ->
  Forall (fun x => aenter x = None) pre ->
  aenter m = Some e ->
  Forall (fun x => forall exc, exists b, aexit x exc = ExitReturns b) pre ->
  Exists (fun x => forall exc, aexit x (Some exc) = ExitReturns true) pre ->
  (lifespan_startup aenter aexit iter ctx).2
  = inl (RuntimeError "generator didn't yield").
Proof.
  intros Hplan Hok He Hq Hsw. unfold lifespan_startup.
  rewrite Hplan, (enter_all_raise aenter pre m post e) by assumption.
  rewrite app_nil_r. unfold stack_aexit.
  destruct (unwind aexit (rev pre) (Some e) false false)
    as [evs [[exc' s'] p']] eqn:E.
  destruct (unwind_no_raise (rev pre) (Some e) false exc' s' p') as (-> & Hs & _ & Hx).
  - apply Forall_forall. intros x Hx. rewrite Forall_forall in Hq.
    apply Hq. apply list_elem_of_In. apply list_elem_of_In in Hx. now apply in_rev.
  - discriminate.
  - now rewrite E.
  - simpl. rewrite Hs; [reflexivity|]. apply Hx.
    apply Exists_exists in Hsw as (x & Hin & Hx').
    apply Exists_exists. exists x. split; [|exact Hx'].
    apply list_elem_of_In. apply list_elem_of_In in Hin. now apply in_rev in Hin.
Qed.

End Lifespan.
End LifespanFacts.

(** ** URL quoting *)

Module QuoteFacts.
Import Py PytestPlugin.

Lemma chars_append (a b : string) :
  list_ascii_of_string (a +:+ b)
  = list_ascii_of_string a ++ list_ascii_of_string b.
Proof. induction a as [|c a IH]; simpl; [reflexivity|now rewrite IH]. Qed.

Lemma hex_digit_safe (n : nat) : (n < 16)%nat -> always_safe (hex_digit n) = true.
Proof.
  intros Hn. do 16 (destruct n as [|n]; [reflexivity|]). lia.
Qed.

Lemma hex_digit_inj (a b : nat) :
  (a < 16)%nat -> (b < 16)%nat -> hex_digit a = hex_digit b -> a = b.
Proof.
  intros Ha Hb Heq. apply (f_equal nat_of_ascii) in Heq. unfold hex_digit in Heq.
  destruct (Nat.ltb_spec a 10); destruct (Nat.ltb_spec b 10);
    rewrite !nat_ascii_embedding in Heq by lia; lia.
Qed.

Lemma percent_unsafe : always_safe "%"%char = false.
Proof. reflexivity. Qed.

(** A byte is kept when it is safe and becomes a percent sign and two
    hexadecimal digits otherwise. *)
Lemma quote_cons (c : ascii) (s : string) :
  quote (String c s)
  = if always_safe c
    then String c (quote s)
    else String "%"%char
           (String (hex_digit (nat_of_ascii c / 16))
              (String (hex_digit (nat_of_ascii c mod 16)) (quote s))).
Proof. simpl. unfold quote_byte. now destruct (always_safe c). Qed.

Lemma byte_of_digits (c1 c2 : ascii) :
  hex_digit (nat_of_ascii c1 / 16) = hex_digit (nat_of_ascii c2 / 16) ->
  hex_digit (nat_of_ascii c1 mod 16) = hex_digit (nat_of_ascii c2 mod 16) ->
  c1 = c2.
Proof.
  intros Hh Hl.
  pose proof (nat_ascii_bounded c1) as B1. pose proof (nat_ascii_bounded c2) as B2.
  apply hex_digit_inj in Hh;
    [|apply Nat.Div0.div_lt_upper_bound; lia|apply Nat.Div0.div_lt_upper_bound; lia].
  apply hex_digit_inj in Hl; [|apply Nat.mod_upper_bound; lia..].
  rewrite <- (ascii_nat_embedding c1), <- (ascii_nat_embedding c2).
  f_equal.
  rewrite (Nat.div_mod_eq (nat_of_ascii c1) 16), (Nat.div_mod_eq (nat_of_ascii c2) 16).
  now rewrite Hh, Hl.
Qed.

Lemma quote_chars (s : string) :
  Forall (fun c => always_safe c = true \/ c = "%"%char)
    (list_ascii_of_string (quote s)).
Proof.
  induction s as [|c s IH]; [constructor|].
  rewrite quote_cons. pose proof (nat_ascii_bounded c) as B.
  destruct (always_safe c) eqn:E; cbn [list_ascii_of_string].
  - constructor; [now left|exact IH].
  - constructor; [now right|].
    constructor; [left; apply hex_digit_safe, Nat.Div0.div_lt_upper_bound; lia|].
    constructor; [left; apply hex_digit_safe, Nat.mod_upper_bound; lia|exact IH].
Qed.

Lemma quote_no_slash (s : string) : ~ In "/"%char (list_ascii_of_string (quote s)).
Proof.
  intros Hin. apply list_elem_of_In in Hin.
  pose proof (quote_chars s) as Hall. rewrite Forall_forall in Hall.
  destruct (Hall _ Hin) as [Hx|Hx]; discriminate.
Qed.

(** X10. A quoted string consists of letters, digits, the four marks [_.-~]
    and percent signs. In particular it holds no slash, no space and no
    question mark, whatever the string quoted. *)
Theorem quote_charset (s : string) :
  Forall (fun c => always_safe c = true \/ c = "%"%char)
    (list_ascii_of_string (quote s))
  /\ ~ In "/"%char (list_ascii_of_string (quote s))
  /\ ~ In " "%char (list_ascii_of_string (quote s))
  /\ ~ In "?"%char (list_ascii_of_string (quote s)).
Proof.
  pose proof (quote_chars s) as Hall.
  split; [exact Hall|split; [apply quote_no_slash|]].
  rewrite Forall_forall in Hall.
  split; intros Hin; apply list_elem_of_In in Hin;
    destruct (Hall _ Hin) as [Hx|Hx]; discriminate.
Qed.

Lemma quote_injective (s1 s2 : string) : quote s1 = quote s2 -> s1 = s2.
Proof.
  revert s2. induction s1 as [|c1 s1 IH]; intros [|c2 s2].
  - reflexivity.
  - rewrite quote_cons. simpl. destruct (always_safe c2); discriminate.
  - rewrite quote_cons. simpl. destruct (always_safe c1); discriminate.
  - rewrite !quote_cons.
    destruct (always_safe c1) eqn:E1; destruct (always_safe c2) eqn:E2.
    + intros [= -> Hq]. f_equal. now apply IH.
    + intros [= -> _]. rewrite percent_unsafe in E1. discriminate.
    + intros [= <- _]. rewrite percent_unsafe in E2. discriminate.
    + intros [= Hh Hl Hq]. f_equal; [now apply byte_of_digits|now apply IH].
Qed.

(** X11. Quoting loses nothing: strings that differ have quotations that
    differ. *)
Theorem quote_inj (s1 s2 : string) : quote s1 = quote s2 -> s1 = s2.
Proof. apply quote_injective. Qed.

Lemma quote_length (s : string) : (String.length s <= String.length (quote s))%nat.
Proof.
  induction s as [|c s IH]; [reflexivity|].
  rewrite quote_cons. destruct (always_safe c); simpl; lia.
Qed.

(** X13. Quoting returns a string as it is exactly when all its bytes are
    letters, digits or one of the four marks. *)
Theorem quote_id_iff_safe (s : string) :
  quote s = s <-> Forall (fun c => always_safe c = true) (list_ascii_of_string s).
Proof.
  induction s as [|c s IH]; [split; [constructor|reflexivity]|].
  rewrite quote_cons. simpl. rewrite Forall_cons.
  destruct (always_safe c) eqn:E.
  - split.
    + intros [= Hq]. split; [reflexivity|now apply IH].
    + intros [_ Hs]. f_equal. now apply IH.
  - split; [|intros [[=] _]].
    intros [= _ Hq]. exfalso.
    pose proof (quote_length s) as Hlen. apply (f_equal String.length) in Hq.
    simpl in Hq. lia.
Qed.

Lemma split_at_slash (a1 a2 b1 b2 : string) :
  ~ In "/"%char (list_ascii_of_string a1) ->
  ~ In "/"%char (list_ascii_of_string a2) ->
  a1 +:+ String "/"%char b1 = a2 +:+ String "/"%char b2 ->
  a1 = a2 /\ b1 = b2.
Proof.
  revert a2. induction a1 as [|c a1 IH]; intros [|c' a2] H1 H2; simpl.
  - now intros [= ->].
  - intros [= <- _]. exfalso. apply H2. now left.
  - intros [= -> _]. exfalso. apply H1. now left.
  - intros [= -> Heq]. destruct (IH a2) as [-> ->]; try assumption.
    + intros Hin. apply H1. now right.
    + intros Hin. apply H2. now right.
    + now split.
Qed.

(** X12. Queues that differ in virtual host or in name are deleted at different
    URLs, also when a name or a virtual host holds a slash; so the queues
    of a listing without repetition get one URL each. *)
Theorem queue_url_inj (q1 q2 : queue) :
  (queue_url q1 = queue_url q2 -> q1 = q2)
  /\ forall queues, NoDup queues -> NoDup (delete_urls queues).
Proof.
  assert (Hinj : forall a b, queue_url a = queue_url b -> a = b).
  { intros [v1 n1] [v2 n2]. unfold queue_url. simpl. intros [= Heq].
    apply split_at_slash in Heq as [Hv Hn];
      [|apply quote_no_slash|apply quote_no_slash].
    apply quote_injective in Hv. apply quote_injective in Hn. now subst. }
  split; [apply Hinj|].
  intros queues. unfold delete_urls.
  induction 1 as [|q queues Hq Hnd IH]; simpl; constructor; [|exact IH].
  intros Hin. apply Hq.
  apply list_elem_of_In, in_map_iff in Hin as (q' & Heq & Hin).
  apply Hinj in Heq. subst q'. now apply list_elem_of_In.
Qed.

End QuoteFacts.

(** ** More on the test harness *)

Module FixtureFacts.
Import Py PytestPlugin HarnessFacts.

Section Isolation.
Variable rabbitmq_get : string -> exn + response.
Variable rabbitmq_delete : string -> exn + response.

(** X14. With the listing received and decoded, the isolation fixture raises
    exactly when some deletion gets no response, in whatever order the
    deletions complete, and what it raises is the exception of one of the
    deletions. The status of the responses plays no part. *)
Theorem amqp_queue_isolation_raises_iff sched r queues :
  rabbitmq_get "queues" = inr r ->
  json r = inr queues ->
  sched ≡ₚ seq 0 (length queues) ->
  (raised (amqp_queue_isolation rabbitmq_get rabbitmq_delete sched)
   <-> Exists (fun url => raised (rabbitmq_delete url)) (delete_urls queues))
  /\ (forall e,
      amqp_queue_isolation rabbitmq_get rabbitmq_delete sched = inl e ->
      exists url, url ∈ delete_urls queues /\ rabbitmq_delete url = inl e).
Proof.
  intros Hget Hjson Hperm.
  assert (Hfrom : forall e,
            amqp_queue_isolation rabbitmq_get rabbitmq_delete sched = inl e ->
            exists url, url ∈ delete_urls queues /\ rabbitmq_delete url = inl e).
  { intros e. unfold amqp_queue_isolation.
    rewrite Hget. simpl. rewrite Hjson. simpl. unfold gather.
    destruct (first_raised _ sched) as [e'|] eqn:E; [|discriminate].
    intros [= <-]. apply first_raised_elem in E.
    apply list_elem_of_In, in_map_iff in E as (url & Hurl & Hin).
    exists url. split; [now apply list_elem_of_In|exact Hurl]. }
  split; [split|exact Hfrom].
  - intros [e He]. destruct (Hfrom e He) as (url & Hin & Hurl).
    apply Exists_exists. exists url. split; [exact Hin|now exists e].
  - now apply amqp_queue_isolation_no_response with (r := r).
Qed.

End Isolation.

Section Collection.
Implicit Types (item : Item) (items : list Item) (store : lists) (l : nat).

Lemma modify_item_at item store l :
  modify_item item store l
  = if decide (l = fixturenames item)
    then added_fixtures item ++ store l
    else store l.
Proof.
  unfold modify_item, added_fixtures, prepend_fixtures.
  now destruct (get_closest_marker "integration_test" item).
Qed.

Lemma added_fixtures_marked item :
  "integration_test" ∈ markers item -> added_fixtures item = integration_fixtures.
Proof.
  intros Hm. unfold added_fixtures, get_closest_marker.
  now rewrite bool_decide_eq_true_2.
Qed.

Lemma added_fixtures_unmarked item :
  "integration_test" ∉ markers item -> added_fixtures item = unit_test_fixtures.
Proof.
  intros Hm. unfold added_fixtures, get_closest_marker.
  now rewrite bool_decide_eq_false_2.
Qed.

Lemma empty_environment_not_integration :
  "empty_environment" ∉ integration_fixtures.
Proof.
  unfold integration_fixtures. rewrite !elem_of_cons, elem_of_nil.
  intros Hin. repeat (destruct Hin as [Hin|Hin]; [discriminate|]). exact Hin.
Qed.

(** What a list object holds after the hook: the names added for the items
    that hold it, those of the last such item first, before what it held. *)
Lemma modifyitems_at items store l :
  pytest_collection_modifyitems items store l
  = flat_map added_fixtures
      (rev (filter (fun item => fixturenames item = l) items))
    ++ store l.
Proof.
  unfold pytest_collection_modifyitems. revert store.
  induction items as [|item items IH]; intros store; [reflexivity|].
  simpl. rewrite IH, modify_item_at, filter_cons.
  destruct (decide (fixturenames item = l)) as [<-|Hne].
  - rewrite decide_True by reflexivity. simpl.
    rewrite flat_map_app. simpl. now rewrite app_nil_r, <- app_assoc.
  - rewrite decide_False by congruence. reflexivity.
Qed.

Lemma filter_other_lists items l :
  l ∉ map fixturenames items ->
  filter (fun item => fixturenames item = l) items = [].
Proof.
  induction items as [|x items IH]; intros Hl; [reflexivity|].
  simpl in Hl. apply not_elem_of_cons in Hl as [Hne Hl].
  rewrite filter_cons, decide_False by congruence. now apply IH.
Qed.

Lemma filter_own_list items item :
  NoDup (map fixturenames items) -> item ∈ items ->
  filter (fun item' => fixturenames item' = fixturenames item) items = [item].
Proof.
  induction items as [|x items IH]; intros Hnd Hin; [inversion Hin|].
  simpl in Hnd. apply NoDup_cons in Hnd as [Hfresh Hnd].
  rewrite filter_cons. apply elem_of_cons in Hin as [<-|Hin].
  - rewrite decide_True by reflexivity. f_equal. now apply filter_other_lists.
  - rewrite decide_False; [now apply IH|].
    intros Heq. apply Hfresh. rewrite Heq.
    apply list_elem_of_In, in_map. now apply list_elem_of_In.
Qed.

(** X15. After the hook, a list of fixture names holds what it held, after
    the names added for each item that holds it. For an item that shares
    its list with no other, the names added are the six integration
    fixtures or [empty_environment]: its environment is cleared exactly when
    it is no integration test or asks for it itself, and it gets a fixture
    of the backing services exactly when it is an integration test or asks
    for it itself. An item that shares its list with a test that is no
    integration test has its environment cleared, marked or not. *)
Theorem pytest_collection_modifyitems_prepends items store :
  (forall l,
     pytest_collection_modifyitems items store l
     = flat_map added_fixtures
         (rev (filter (fun item => fixturenames item = l) items))
       ++ store l)
  /\ (forall l, store l `suffix_of` pytest_collection_modifyitems items store l)
  /\ (NoDup (map fixturenames items) ->
      forall item, item ∈ items ->
      let names := pytest_collection_modifyitems items store (fixturenames item) in
      names = added_fixtures item ++ store (fixturenames item)
      /\ ("empty_environment" ∈ names
          <-> "integration_test" ∉ markers item
              \/ "empty_environment" ∈ store (fixturenames item))
      /\ forall fixture, fixture ∈ integration_fixtures ->
           (fixture ∈ names
            <-> "integration_test" ∈ markers item
                \/ fixture ∈ store (fixturenames item)))
  /\ (forall item item',
      item ∈ items -> item' ∈ items ->
      fixturenames item = fixturenames item' ->
      "integration_test" ∉ markers item' ->
      "empty_environment"
      ∈ pytest_collection_modifyitems items store (fixturenames item)).
Proof.
  refine (conj (modifyitems_at items store) (conj _ (conj _ _))).
  - intros l. rewrite modifyitems_at. apply suffix_app_r. reflexivity.
  - intros Hnd item Hin names. unfold names.
    rewrite modifyitems_at, (filter_own_list items item Hnd Hin). simpl.
    rewrite app_nil_r. split; [reflexivity|].
    destruct (decide ("integration_test" ∈ markers item)) as [Hm|Hm].
    + rewrite (added_fixtures_marked item Hm). split.
      * rewrite elem_of_app. split.
        -- intros [Hx|Hx]; [|now right].
           exfalso. now apply empty_environment_not_integration.
        -- intros [Hn|Hx]; [contradiction|now right].
      * intros fixture Hf. rewrite elem_of_app. split; [now left|now left].
    + rewrite (added_fixtures_unmarked item Hm). unfold unit_test_fixtures. split.
      * rewrite elem_of_app. split; [now left|]. intros _. left. now left.
      * intros fixture Hf. rewrite elem_of_app. split.
        -- intros [Hx|Hx]; [|now right].
           apply list_elem_of_singleton in Hx. subst fixture.
           exfalso. now apply empty_environment_not_integration.
        -- intros [Hx|Hx]; [contradiction|now right].
  - intros item item' Hin Hin' Hshare Hm. rewrite modifyitems_at.
    apply elem_of_app. left.
    apply list_elem_of_In, in_flat_map. exists item'. split.
    + apply in_rev. rewrite rev_involutive. apply list_elem_of_In.
      apply list_elem_of_filter. split; [now symmetry|exact Hin'].
    + rewrite (added_fixtures_unmarked item' Hm). now left.
Qed.

End Collection.

Section Counters.
Implicit Types (queues : list queue_counts) (xs : list Z).

Lemma foldl_add (a : Z) xs : foldl Z.add a xs = (a + sum_of xs)%Z.
Proof.
  unfold sum_of. revert a. induction xs as [|x xs IH]; intros a; simpl; [lia|].
  rewrite (IH (a + x)%Z), (IH (0 + x)%Z). lia.
Qed.

Lemma sum_of_cons (x : Z) xs : sum_of (x :: xs) = (x + sum_of xs)%Z.
Proof. unfold sum_of at 1. simpl. now rewrite foldl_add. Qed.

Lemma sum_of_app xs ys : sum_of (xs ++ ys) = (sum_of xs + sum_of ys)%Z.
Proof.
  induction xs as [|x xs IH]; simpl; [reflexivity|].
  rewrite !sum_of_cons, IH. lia.
Qed.

Lemma sum_of_nonneg xs : Forall (fun x => 0 <= x)%Z xs -> (0 <= sum_of xs)%Z.
Proof.
  induction 1 as [|x xs Hx Hxs IH]; [reflexivity|]. rewrite sum_of_cons. lia.
Qed.

(** X16. With counts that are not negative, the number of queued messages is 0
    exactly when no queue of the listing has a message ready or
    unacknowledged; a count that is missing counts as 0. *)
Theorem get_num_queued_messages_zero queues :
  Forall (fun q => 0 <= default 0 (messages_ready q)
                   /\ 0 <= default 0 (messages_unacknowledged q))%Z queues ->
  get_num_queued_messages (inr queues) = inr 0%Z
  <-> Forall (fun q => default 0%Z (messages_ready q) = 0%Z
                       /\ default 0%Z (messages_unacknowledged q) = 0%Z) queues.
Proof.
  intros Hpos. unfold get_num_queued_messages. simpl.
  induction Hpos as [|q queues [Hr Hu] Hpos IH]; simpl.
  - split; [constructor|reflexivity].
  - rewrite sum_of_cons, Forall_cons.
    assert (Hsum : (0 <= sum_of (map queued queues))%Z).
    { apply sum_of_nonneg. apply Forall_forall. intros x Hx.
      apply list_elem_of_In, in_map_iff in Hx as (q' & <- & Hin).
      rewrite Forall_forall in Hpos. apply list_elem_of_In in Hin.
      destruct (Hpos q' Hin). unfold queued. lia. }
    unfold queued at 1. split.
    + intros [= Hz]. split; [lia|]. apply IH. f_equal. lia.
    + intros [[Hr0 Hu0] Hrest]. apply IH in Hrest. injection Hrest as Hrest.
      f_equal. lia.
Qed.

(** X17. Both counters add up over the parts of a listing and give 0 for an empty
    one; the counter of consumed messages counts the queues that report
    acknowledgements and no other. *)
Theorem message_counters_add_up queues1 queues2 :
  get_num_queued_messages (inr (queues1 ++ queues2))
  = bind (get_num_queued_messages (inr queues1)) (fun n1 =>
    bind (get_num_queued_messages (inr queues2)) (fun n2 => inr (n1 + n2)%Z))
  /\ get_num_consumed_messages (inr (queues1 ++ queues2))
     = bind (get_num_consumed_messages (inr queues1)) (fun n1 =>
       bind (get_num_consumed_messages (inr queues2)) (fun n2 => inr (n1 + n2)%Z))
  /\ get_num_queued_messages (inr []) = inr 0%Z
  /\ get_num_consumed_messages (inr []) = inr 0%Z
  /\ get_num_consumed_messages (inr queues1)
     = inr (sum_of (omap (fun q => message_stats q ≫= lookup "ack") queues1)).
Proof.
  unfold get_num_queued_messages, get_num_consumed_messages. simpl.
  rewrite !map_app, !sum_of_app.
  refine (conj eq_refl (conj eq_refl (conj eq_refl (conj eq_refl _)))).
  f_equal. induction queues1 as [|q queues IH]; simpl; [reflexivity|].
  rewrite sum_of_cons, IH. unfold consumed, omap.
  destruct (message_stats q) as [stats|]; simpl.
  - destruct (stats !! "ack"); simpl; [now rewrite sum_of_cons|lia].
  - rewrite lookup_empty. simpl. lia.
Qed.

End Counters.
End FixtureFacts.

(** ** Concrete runs of the further properties *)

Module MoreExamples.
Import Py FastAPI Samples BootstrapFacts RegistrationFacts ProbeFacts LifespanFacts.


(** X5, witness. [a=1, b=2] and then [b=3, c=4] is [a=1, b=3, c=4]. *)
Lemma add_context_compose_witness :
  let first := [("a", 1%Z); ("b", 2%Z)] in
  let second := [("b", 3%Z); ("c", 4%Z)] in
  NoDup (map fst first)
  /\ NoDup (map fst second)
  /\ add_context second (add_context first app)
     = add_context [("a", 1%Z); ("b", 3%Z); ("c", 4%Z)] app.
Proof.
  intros first second.
  assert (H1 : NoDup (map fst first)).
  { apply (@bool_decide_unpack (NoDup (map fst first)) _). vm_compute. exact I. }
  assert (H2 : NoDup (map fst second)).
  { apply (@bool_decide_unpack (NoDup (map fst second)) _). vm_compute. exact I. }
  refine (conj H1 (conj H2 _)).
  exact (proj1 (proj2 (add_context_compose first second app H1 H2))).
Defined.

(** X4, witness. Manager 5, registered last under priority 20, is planned. *)
Lemma add_lifespan_manager_plan_witness :
  (forall s : gset nat, elements s ≡ₚ elements s)
  /\ (20%Z, 5%nat) ∈ lifespan_plan elements with_managers.
Proof.
  assert (Hiter : forall s : gset nat, elements s ≡ₚ elements s) by reflexivity.
  split; [exact Hiter|].
  refine (proj2 (add_lifespan_manager_plan elements Hiter 5%nat (Some 20%Z) _
                   20%Z 5%nat) _).
  left. reflexivity.
Defined.

(** X7, witness. A cancelled check: the exception that leaves the handler is no instance
    of [Exception] and comes from a registered check. *)
Lemma readiness_escapes_witness :
  let ctx := with_checks [("db", Returns true); ("amqp", Raises CancelledError)] in
  readiness run_check ctx
  = Escapes CancelledError (mkProbe 204 true [] ["db"; "amqp"])
  /\ is_Exception CancelledError = false
  /\ exists item, item ∈ healthchecks ctx /\ run_check item.2 ctx = Raises CancelledError.
Proof.
  intros ctx.
  assert (He : readiness run_check ctx
               = Escapes CancelledError (mkProbe 204 true [] ["db"; "amqp"]))
    by reflexivity.
  split; [exact He|]. exact (readiness_escapes run_check ctx _ _ He).
Defined.

(** X9, witness. Manager 5 raises on entry and manager 7 swallows the exception on exit:
    startup fails with [RuntimeError]. *)
Lemma lifespan_startup_swallowed_witness :
  map snd (lifespan_plan elements with_managers) = [7; 9]%nat ++ 5%nat :: [3%nat]
  /\ Forall (fun x => enter_but 5 x = None) [7; 9]%nat
  /\ Forall (fun x => forall exc, exists b, swallow_at 7 x exc = ExitReturns b) [7; 9]%nat
  /\ Exists (fun x => forall exc, swallow_at 7 x (Some exc) = ExitReturns true) [7; 9]%nat
  /\ (lifespan_startup (enter_but 5) (swallow_at 7) elements with_managers).2
     = inl (RuntimeError "generator didn't yield").
Proof.
  assert (Hplan : map snd (lifespan_plan elements with_managers)
                  = [7; 9]%nat ++ 5%nat :: [3%nat]) by (vm_compute; reflexivity).
  assert (Hok : Forall (fun x => enter_but 5 x = None) [7; 9]%nat)
    by (repeat constructor).
  assert (Hq : Forall (fun x => forall exc, exists b, swallow_at 7 x exc = ExitReturns b)
                 [7; 9]%nat).
  { repeat constructor; intros exc; eexists; reflexivity. }
  assert (Hsw : Exists (fun x => forall exc, swallow_at 7 x (Some exc) = ExitReturns true)
                  [7; 9]%nat).
  { left. intros exc. reflexivity. }
  refine (conj Hplan (conj Hok (conj Hq (conj Hsw _)))).
  exact (lifespan_startup_swallowed (enter_but 5) (swallow_at 7) elements
           with_managers [7; 9]%nat 5%nat [3%nat] ConnectError Hplan Hok eq_refl Hq Hsw).
Defined.

End MoreExamples.

Module FixtureExamples.
Import Py PytestPlugin QuoteFacts FixtureFacts.

(** X11, witness. The default virtual host quotes to [%2F]. *)
Lemma quote_inj_witness :
  quote "/" = "%2F" /\ quote "/" = quote "/" /\ "/" = "/".
Proof.
  split; [reflexivity|]. split; [reflexivity|].
  exact (quote_inj "/" "/" eq_refl).
Defined.

(** X14, witness. Two queues are listed; the deletion of the second gets no response and
    completes first. *)
Lemma amqp_queue_isolation_raises_iff_witness :
  let listing := mkResponse 200 (inr [mkQueue "/" "a"; mkQueue "/" "b"]) in
  let get := fun _ : string => inr listing in
  let delete := fun url : string =>
    if String.eqb url "queues/%2F/b" then inl ConnectError
    else inr (mkResponse 204 (inr [])) in
  [1; 0]%nat ≡ₚ seq 0 2
  /\ Exists (fun url => raised (delete url)) (delete_urls [mkQueue "/" "a"; mkQueue "/" "b"])
  /\ raised (amqp_queue_isolation get delete [1; 0]%nat).
Proof.
  intros listing get delete.
  assert (Hperm : [1; 0]%nat ≡ₚ seq 0 2) by apply perm_swap.
  assert (Hex : Exists (fun url => raised (delete url))
                  (delete_urls [mkQueue "/" "a"; mkQueue "/" "b"])).
  { right. left. now exists ConnectError. }
  refine (conj Hperm (conj Hex _)).
  exact (proj2 (proj1 (amqp_queue_isolation_raises_iff get delete [1; 0]%nat
                         listing [mkQueue "/" "a"; mkQueue "/" "b"]
                         eq_refl eq_refl Hperm)) Hex).
Defined.

(** X16, witness. A queue with two messages ready: the count is not 0. *)
Lemma get_num_queued_messages_zero_witness :
  let busy := mkCounts (Some 2%Z) None None in
  let idle := mkCounts None (Some 0%Z) None in
  Forall (fun q => 0 <= default 0 (messages_ready q)
                   /\ 0 <= default 0 (messages_unacknowledged q))%Z [idle; busy]
  /\ get_num_queued_messages (inr [idle; busy]) = inr 2%Z
  /\ ~ Forall (fun q => default 0%Z (messages_ready q) = 0%Z
                        /\ default 0%Z (messages_unacknowledged q) = 0%Z) [idle; busy].
Proof.
  intros busy idle.
  assert (Hpos : Forall (fun q => 0 <= default 0 (messages_ready q)
                                  /\ 0 <= default 0 (messages_unacknowledged q))%Z
                   [idle; busy]).
  { repeat constructor; simpl; lia. }
  refine (conj Hpos (conj eq_refl _)).
  intros Hall.
  pose proof (proj2 (get_num_queued_messages_zero [idle; busy] Hpos) Hall) as Hz.
  discriminate Hz.
Defined.

End FixtureExamples.
